(** * Pitch spelling tutorial (notebooks/03_mlflow/pitch_spelling.ipynb)

    A shallow embedding of the notebook's own Python functions and the
    properties its description states about them.

    Conventions of the embedding:
    - a Python [dict] with string keys is a [gmap string pyval]; a failed
      key lookup ([KeyError]) is [None];
    - a numpy array is a [list]; [a[i] = v] is [<[i:=v]> a] (all indices
      written by the code are shown to be in range);
    - a raised exception is [None] in the [option] monad;
    - numpy [float64] values are exact rationals ([Q]): the statements
      below are about the arithmetic the code writes down, not about
      rounding;
    - the note arrays of partitura are lists of records that keep the
      fields the notebook reads. *)

From Stdlib Require Import Ascii QArith Lqa.
From stdpp Require Import gmap strings list fin_maps pretty sorting.

Local Open Scope string_scope.
Local Open Scope list_scope.
Local Open Scope Z_scope.

(** ** Python values and small numpy helpers *)

(** A cell read by pandas, or a value stored in an alignment dict: a
    string or an integer. *)
Inductive pyval :=
  | VStr (s : string)
  | VInt (z : Z).

#[global] Instance pyval_eq_dec : EqDecision pyval.
Proof. solve_decision. Defined.

(** [str(v)] *)
Definition py_str (v : pyval) : string :=
  match v with
  | VStr s => s
  | VInt z => pretty z
  end.

(** [a.item()]: the single element of a one-element array, an error
    otherwise. *)
Definition item {A} (a : list A) : option A :=
  match a with
  | [x] => Some x
  | _ => None
  end.

(** [np.where(cond)[0]] for a condition computed elementwise: the indices
    at which it holds, in increasing order. *)
Fixpoint np_where_from {A} (cond : A → bool) (i : nat) (a : list A) : list nat :=
  match a with
  | [] => []
  | x :: a' =>
      if cond x then i :: np_where_from cond (S i) a'
      else np_where_from cond (S i) a'
  end.

Definition np_where {A} (cond : A → bool) (a : list A) : list nat :=
  np_where_from cond 0 a.

(** [a[np.where(cond)]]: the elements at which the condition holds. *)
Definition np_select {A} (cond : A → bool) (a : list A) : list A :=
  filter (λ x, cond x = true) a.

(** [for idx, x in enumerate(l): st = body(st, idx, x)], threading the
    state and stopping at the first error. *)
Fixpoint for_enumerate {St A} (body : St → nat → A → option St)
    (idx : nat) (l : list A) (st : St) : option St :=
  match l with
  | [] => Some st
  | x :: l' => st' ← body st idx x; for_enumerate body (S idx) l' st'
  end.

(** [int(q)] on a float: truncation toward zero. *)
Definition py_int (q : Q) : Z := Z.quot (Qnum q) (Z.pos (Qden q)).

(** ** The spelling table *)

(** [PITCHES]: a dict literal; Python keeps the insertion order, which
    [PITCHES.values()] follows. *)
Definition PITCHES : list (nat * list string) :=
  [ (0%nat, ["C"; "B#"; "D--"]);
    (1%nat, ["C#"; "B##"; "D-"]);
    (2%nat, ["D"; "C##"; "E--"]);
    (3%nat, ["D#"; "E-"; "F--"]);
    (4%nat, ["E"; "D##"; "F-"]);
    (5%nat, ["F"; "E#"; "G--"]);
    (6%nat, ["F#"; "E##"; "G-"]);
    (7%nat, ["G"; "F##"; "A--"]);
    (8%nat, ["G#"; "A-"]);
    (9%nat, ["A"; "G##"; "B--"]);
    (10%nat, ["A#"; "B-"; "C--"]);
    (11%nat, ["B"; "A##"; "C-"]) ].

(** [PITCHES[k]] *)
Definition PITCHES_get (k : nat) : option (list string) :=
  (λ r, snd (snd r)) <$> list_find (λ kv, fst kv = k) PITCHES.

(** [accepted_pitches = [ii for i in PITCHES.values() for ii in i]] *)
Definition accepted_pitches : list string :=
  concat (snd <$> PITCHES).

(** [l.index(p)]: the first position of [p]; [ValueError] when absent. *)
Fixpoint index (p : string) (l : list string) : option nat :=
  match l with
  | [] => None
  | x :: l' => if decide (x = p) then Some 0%nat else S <$> index p l'
  end.

(** [{p: l.index(p) for p in l}]. The keys are drawn from [l] itself, so
    [index] cannot fail inside the comprehension. *)
Definition index_dict (l : list string) : gmap string nat :=
  foldl (λ m p, match index p l with Some i => <[p:=i]> m | None => m end) ∅ l.

Definition pitch_to_ix : gmap string nat := index_dict accepted_pitches.

(** ** Note arrays *)

(** A row of [performance.note_array()]. *)
Record perf_note := PerfNote {
  pn_id : string;
  pn_pitch : Z;
  pn_duration_sec : Q
}.

(** A row of [spart.note_array(include_pitch_spelling=True)]. *)
Record score_note := ScoreNote {
  sn_id : string;
  sn_step : string;
  sn_alter : Z;
  sn_octave : Z
}.

(** A row with the fields [("step", "alter", "octave")]. *)
Record spelling := Spelling {
  sp_step : string;
  sp_alter : Z;
  sp_octave : Z
}.

#[global] Instance spelling_eq_dec : EqDecision spelling.
Proof. solve_decision. Defined.

(** [sna[...][["step", "alter", "octave"]]] on one row. *)
Definition spelling_fields (n : score_note) : spelling :=
  Spelling (sn_step n) (sn_alter n) (sn_octave n).

(** ** Features and labels *)

(** The dict literal [{0:"", 1:"#", 2:"##", -1:"-", -2:"--"}]. *)
Definition alter_to_str : gmap Z string :=
  list_to_map [(0, ""); (1, "#"); (2, "##"); (-1, "-"); (-2, "--")].

(** The dict literal [{"":0, "#":1, "##":2, "-":-1, "--":-2}]. *)
Definition str_to_alter : gmap string Z :=
  list_to_map [("", 0); ("#", 1); ("##", 2); ("-", -1); ("--", -2)].

Definition tokenize_pitch_spelling (ps_note : list spelling) : option nat :=
  a ← item (sp_alter <$> ps_note);
  alter ← alter_to_str !! a;
  s ← item (sp_step <$> ps_note);
  pitch_to_ix !! (s +:+ alter).

Definition extract_features (perf_note : list perf_note) : option (list Q) :=
  let features := replicate 14 0%Q in
  p ← item (pn_pitch <$> perf_note);
  let features := <[Z.to_nat (p `mod` 12) := 1%Q]> features in
  p ← item (pn_pitch <$> perf_note);
  let features := <[12%nat := (inject_Z p / 127)%Q]> features in
  d ← item (pn_duration_sec <$> perf_note);
  let features := <[13%nat := (d / 60)%Q]> features in
  Some features.

(** [[alignment[idx] for idx, d in enumerate(alignment)
      if d["label"] == "match"]] *)
Fixpoint matched_notes (alignment : list (gmap string pyval))
    : option (list (gmap string pyval)) :=
  match alignment with
  | [] => Some []
  | d :: alignment' =>
      label ← d !! "label";
      rest ← matched_notes alignment';
      Some (if bool_decide (label = VStr "match") then d :: rest else rest)
  end.

(** What [pt.load_match] and the score loading give for one
    [(score_file, match_file)] pair: the performance note array, the
    alignment and the note array of the unfolded score. *)
Record loaded_pair := LoadedPair {
  lp_pna : list perf_note;
  lp_alignment : list (gmap string pyval);
  lp_sna : list score_note
}.

(** The body of the inner loop of [create_data]. *)
Definition create_data_row (pna : list perf_note) (sna : list score_note)
    (Xy : list (list Q) * list nat) (idx : nat) (match_note : gmap string pyval)
    : option (list (list Q) * list nat) :=
  pid ← match_note !! "performance_id";
  row ← extract_features
          (np_select (λ n, bool_decide (pn_id n = py_str pid)) pna);
  sid ← match_note !! "score_id";
  tok ← tokenize_pitch_spelling
          (spelling_fields <$> np_select (λ n, bool_decide (VStr (sn_id n) = sid)) sna);
  Some (<[idx := row]> Xy.1, <[idx := tok]> Xy.2).

(** The body of the outer loop of [create_data]. *)
Definition create_data_file
    (acc : list (list (list Q)) * list (list nat)) (f : loaded_pair)
    : option (list (list (list Q)) * list (list nat)) :=
  matched ← matched_notes (lp_alignment f);
  let X := replicate (length matched) (replicate 14 0%Q) in
  let y := replicate (length matched) 0%nat in
  Xy ← for_enumerate (create_data_row (lp_pna f) (lp_sna f)) 0 matched (X, y);
  Some (acc.1 ++ [Xy.1], acc.2 ++ [Xy.2]).

Definition create_data (files : list loaded_pair)
    : option (list (list (list Q)) * list (list nat)) :=
  for_enumerate (λ acc _ f, create_data_file acc f) 0 files ([], []).

(** ** Alignment conversion *)

(** The loop of [produce_match] over the rows [(xml_id, midi_id)] of the
    alignment table; the list it builds is what it hands to
    [pt.save_match]. *)
Definition produce_match_dict (x : pyval * pyval) : gmap string pyval :=
  if bool_decide (x.2 = VStr "deletion") then
    {[ "label" := VStr "deletion"; "score_id" := x.1 ]}
  else if bool_decide (x.1 = VStr "insertion") then
    {[ "label" := VStr "insertion"; "performance_id" := VStr (py_str x.2) ]}
  else
    {[ "label" := VStr "match"; "score_id" := x.1;
       "performance_id" := VStr (py_str x.2) ]}.

Definition produce_match (data : list (pyval * pyval)) : list (gmap string pyval) :=
  foldl (λ alignment x, alignment ++ [produce_match_dict x]) [] data.

(** ** The model's prediction *)

(** [len(pitch_to_ix)] *)
Definition n_out_pitch : nat := size pitch_to_ix.

(** [torch.argmax] along the last dimension: the index of the first
    maximal value. *)
Fixpoint argmax_from (best_i : nat) (best : Q) (i : nat) (row : list Q) : nat :=
  match row with
  | [] => best_i
  | x :: row' =>
      if Qlt_le_dec best x then argmax_from i x (S i) row'
      else argmax_from best_i best (S i) row'
  end.

Definition argmax (row : list Q) : option nat :=
  match row with
  | [] => None
  | x :: row' => Some (argmax_from 0 x 1 row')
  end.

Fixpoint argmax_rows (scores : list (list Q)) : option (list nat) :=
  match scores with
  | [] => Some []
  | row :: scores' =>
      i ← argmax row; rest ← argmax_rows scores'; Some (i :: rest)
  end.

(** Iterating over [t.squeeze()] for [t] of shape [(1, N)]: squeezing a
    [(1, 1)] tensor leaves a 0-d tensor, which cannot be iterated. *)
Definition iter_squeezed (t : list nat) : option (list nat) :=
  if decide (length t = 1%nat) then None else Some t.

(** The three vectorised assignments that fill [features] in [predict]. *)
Definition predict_features (pna : list perf_note) : list (list Q) :=
  let features := replicate (length pna) (replicate 14 0%Q) in
  let features :=
    zip_with (λ row n, <[Z.to_nat (pn_pitch n `mod` 12) := 1%Q]> row) features pna in
  let features :=
    zip_with (λ row n, <[12%nat := (inject_Z (pn_pitch n) / 127)%Q]> row) features pna in
  zip_with (λ row n, <[13%nat := (pn_duration_sec n / 60)%Q]> row) features pna.

(** [s[0]] and [s[1:]] on a Python string. *)
Definition str_first (s : string) : option string :=
  match s with
  | EmptyString => None
  | String c _ => Some (String c EmptyString)
  end.

Definition str_rest (s : string) : string :=
  match s with
  | EmptyString => EmptyString
  | String _ r => r
  end.

(** One tuple of [spelling_array]. *)
Definition decode_spelling (pna : list perf_note) (i pp : nat) : option spelling :=
  name ← accepted_pitches !! pp;
  st ← str_first name;
  al ← str_to_alter !! str_rest name;
  n ← pna !! i;
  Some (Spelling st al (py_int (inject_Z (pn_pitch n) / 12)%Q - 1)).

Fixpoint spelling_array_from (pna : list perf_note) (i : nat) (predicted : list nat)
    : option (list spelling) :=
  match predicted with
  | [] => Some []
  | pp :: predicted' =>
      sp ← decode_spelling pna i pp;
      rest ← spelling_array_from pna (S i) predicted';
      Some (sp :: rest)
  end.

(** [PKSpell.predict]. [compute_outputs] stands for the method of the same
    name applied to the one-sequence batch [[features]]: torch's LSTM,
    dropout and linear layer with the trained weights, giving one row of
    scores per note. *)
Definition predict (compute_outputs : list (list Q) → list (list Q))
    (pna : list perf_note) : option (list spelling) :=
  let features := predict_features pna in
  let scores_pitch := compute_outputs features in
  am ← argmax_rows scores_pitch;
  predicted_pitch ← iter_squeezed am;
  spelling_array_from pna 0 predicted_pitch.

(** ** Batching *)

(** [data.sort(key=lambda x: len(x[0]), reverse=True)]: Python's sort is
    stable, also with [reverse=True]. *)
Fixpoint insert_desc {A B} (x : list A * B) (l : list (list A * B)) : list (list A * B) :=
  match l with
  | [] => [x]
  | y :: l' =>
      if decide (length x.1 < length y.1)%nat then y :: insert_desc x l'
      else x :: y :: l'
  end.

Definition sort_desc {A B} (data : list (list A * B)) : list (list A * B) :=
  foldr insert_desc [] data.

(** [t.float()] on a two-dimensional tensor, for a rounding [to_float32]
    to single precision. *)
Definition tensor_float (to_float32 : Q → Q) (t : list (list Q)) : list (list Q) :=
  (λ row : list Q, to_float32 <$> row) <$> t.

(** [collate_ps]. [to_float32] is the rounding of [.float()]. The unpacking
    of [zip( *data)] into two names fails on an empty batch. *)
Definition collate_ps (to_float32 : Q → Q) (data : list (list (list Q) * list nat))
    : option (list (list Q) * list nat * list nat) :=
  let sorted : list (list (list Q) * list nat) := sort_desc data in
  match sorted with
  | [] => None
  | _ :: _ =>
      let src_seqs : list (list (list Q)) := fst <$> sorted in
      let trg_seqs : list (list nat) := snd <$> sorted in
      let src_lengths : list nat := length <$> src_seqs in
      s ← head src_seqs;
      t ← head trg_seqs;
      Some (tensor_float to_float32 s, src_lengths, t)
  end.

(** ** Evaluation against the score *)

(** The inner loop of [eval_matched], left at the first alignment entry
    that names the performance note. *)
Fixpoint eval_matched_inner (sna : list score_note) (i : nat) (perf_note : perf_note)
    (matched_notes : list (gmap string pyval)) (st : list nat * list Q)
    : option (list nat * list Q) :=
  match matched_notes with
  | [] => Some st
  | match_note :: matched_notes' =>
      pid ← match_note !! "performance_id";
      if bool_decide (pid = VStr (pn_id perf_note)) then
        sid ← match_note !! "score_id";
        j ← item (np_where (λ n, bool_decide (VStr (sn_id n) = sid)) sna);
        Some (st.1 ++ [j], <[i := 1%Q]> st.2)
      else eval_matched_inner sna i perf_note matched_notes' st
  end.

(** [sna[score_idxs]]: [np.array([])] is a float array, which numpy
    refuses as an index; an index out of range is refused as well. *)
Definition np_take {A} (a : list A) (idxs : list nat) : option (list A) :=
  match idxs with
  | [] => None
  | _ => mapM (λ j, a !! j) idxs
  end.

Definition eval_matched (sna : list score_note) (alignment : list (gmap string pyval))
    (pna : list perf_note) : option (list spelling * list Q) :=
  matched_notes ← matched_notes alignment;
  let matched := replicate (length pna) 0%Q in
  st ← for_enumerate (λ st i perf_note, eval_matched_inner sna i perf_note matched_notes st)
         0 pna ([], matched);
  rows ← np_take sna st.1;
  Some (spelling_fields <$> (rows : list score_note), st.2).

(** [a[matched.astype(bool)]] *)
Definition astype_bool (q : Q) : bool := negb (Qeq_bool q 0).

Fixpoint mask_select {A} (mask : list Q) (a : list A) : list A :=
  match mask, a with
  | m :: mask', x :: a' =>
      if astype_bool m then x :: mask_select mask' a' else mask_select mask' a'
  | _, _ => []
  end.

(** ** The rest of the notebook *)

(** [needle in hay] on Python strings: [needle] occurs as a substring. *)
Fixpoint py_in (needle hay : string) : bool :=
  match hay with
  | EmptyString => String.prefix needle EmptyString
  | String _ hay' => String.prefix needle hay || py_in needle hay'
  end.

(** The split of the Bach files (cell 9): [zip( *asap_files)] is unpacked
    into four names, which fails on an empty list; the pairs
    [(score_file, match_file)] are then split on the score path. *)
Definition train_test_split (asap_files : list (string * string * string * string))
    : option (list (string * string) * list (string * string)) :=
  match asap_files with
  | [] => None
  | _ :: _ =>
      let score_files := (λ t, t.1.2) <$> asap_files in
      let match_files := (λ t, t.2) <$> asap_files in
      let asap_train :=
        filter (λ t, py_in "Italian_concerto" t.1 = false) (zip score_files match_files) in
      let asap_test :=
        filter (λ t, py_in "Italian_concerto" t.1 = true) (zip score_files match_files) in
      Some (asap_train, asap_test)
  end.

(** [PSDataset]: [__len__] and [__getitem__] for an index in range
    ([torch.tensor] keeps the values). *)
Definition PSDataset_len (x : list (list (list Q))) (y : list (list nat)) : nat :=
  length x.

Definition PSDataset_getitem (x : list (list (list Q))) (y : list (list nat))
    (idx : nat) : option (list (list Q) * list nat) :=
  xi ← x !! idx; yi ← y !! idx; Some (xi, yi).

(** A batch of the [DataLoader]s of the notebook ([batch_size=1]):
    [collate_ps] applied to the one-item list [[dataset[idx]]]. *)
Definition dataloader_batch (to_float32 : Q → Q)
    (x : list (list (list Q))) (y : list (list nat)) (idx : nat)
    : option (list (list Q) * list nat * list nat) :=
  it ← PSDataset_getitem x y idx; collate_ps to_float32 [it].

(** [a == b] on one-dimensional numpy arrays: elementwise, with a
    one-element array broadcast. Shapes that do not broadcast give no
    elementwise result (an error in recent numpy, a lone [False] with a
    warning in older releases); that case is [None] here and no statement
    below relies on it. *)
Definition np_equal {A} `{EqDecision A} (a b : list A) : option (list bool) :=
  if decide (length a = length b) then
    Some (zip_with (λ u v, bool_decide (u = v)) a b)
  else
    match a, b with
    | [u], _ => Some ((λ v, bool_decide (u = v)) <$> b)
    | _, [v] => Some ((λ u, bool_decide (u = v)) <$> a)
    | _, _ => None
    end.

(** [a.astype(float).mean()] on booleans; [None] stands for the [nan] of an
    empty array. *)
Definition np_mean_bool (a : list bool) : option Q :=
  match a with
  | [] => None
  | _ =>
      Some (foldr Qplus 0%Q ((λ b : bool, if b then 1%Q else 0%Q) <$> a)
            / inject_Z (Z.of_nat (length a)))%Q
  end.

(** The accuracy of the last cell:
    [np.all([pk[key] == true[key] for key in ("step", "alter", "octave")],
            axis=0).astype(float).mean()]. *)
Definition spelling_accuracy (pk_spelling true_spelling : list spelling) : option Q :=
  e_step ← np_equal (sp_step <$> pk_spelling) (sp_step <$> true_spelling);
  e_alter ← np_equal (sp_alter <$> pk_spelling) (sp_alter <$> true_spelling);
  e_octave ← np_equal (sp_octave <$> pk_spelling) (sp_octave <$> true_spelling);
  np_mean_bool (zip_with andb e_step (zip_with andb e_alter e_octave)).




(** ** Reading a spelled name, in the words of the description *)

(** The semitone of a letter: C=0, D=2, E=4, F=5, G=7, A=9, B=11. *)
Definition letter_semitone (c : ascii) : option Z :=
  if decide (c = "C"%char) then Some 0
  else if decide (c = "D"%char) then Some 2
  else if decide (c = "E"%char) then Some 4
  else if decide (c = "F"%char) then Some 5
  else if decide (c = "G"%char) then Some 7
  else if decide (c = "A"%char) then Some 9
  else if decide (c = "B"%char) then Some 11
  else None.

(** The offset of the accidentals: +1 for each sharp, -1 for each flat. *)
Fixpoint accidental_offset (acc : string) : option Z :=
  match acc with
  | EmptyString => Some 0
  | String c acc' =>
      d ← (if decide (c = "#"%char) then Some 1
           else if decide (c = "-"%char) then Some (-1) else None);
      r ← accidental_offset acc';
      Some (d + r)
  end.

Definition spelled_semitone (name : string) : option Z :=
  match name with
  | EmptyString => None
  | String c acc => l ← letter_semitone c; d ← accidental_offset acc; Some (l + d)
  end.

(** A spelled name is valid for pitch class [k]. *)
Definition valid_for (k : nat) (name : string) : Prop :=
  ∃ v, spelled_semitone name = Some v ∧ v `mod` 12 = Z.of_nat k.

(** ** Vocabulary of the statements *)

(** The vector both feature constructions write for one note. *)
Definition note_features (n : perf_note) : list Q :=
  <[13%nat := (pn_duration_sec n / 60)%Q]>
    (<[12%nat := (inject_Z (pn_pitch n) / 127)%Q]>
       (<[Z.to_nat (pn_pitch n `mod` 12) := 1%Q]> (replicate 14 0%Q))).

(** The entry is labelled "match". *)
Definition is_match (d : gmap string pyval) : Prop :=
  d !! "label" = Some (VStr "match").

#[global] Instance is_match_dec d : Decision (is_match d).
Proof. unfold is_match. apply _. Defined.

(** [n] is the performance note whose id equals the entry's
    [performance_id]: the one row that [create_data] selects. *)
Definition names_perf_note (pna : list perf_note) (d : gmap string pyval)
    (n : perf_note) : Prop :=
  ∃ pid, d !! "performance_id" = Some pid ∧
         np_select (λ n', bool_decide (pn_id n' = py_str pid)) pna = [n].

(** [n] is the score note whose id equals the entry's [score_id]. *)
Definition names_score_note (sna : list score_note) (d : gmap string pyval)
    (n : score_note) : Prop :=
  ∃ sid, d !! "score_id" = Some sid ∧
         np_select (λ n', bool_decide (VStr (sn_id n') = sid)) sna = [n].

(** What one alignment entry contributes to [X] and to [y]. *)
Definition entry_features (pna : list perf_note) (d : gmap string pyval)
    : option (list Q) :=
  pid ← d !! "performance_id";
  extract_features (np_select (λ n, bool_decide (pn_id n = py_str pid)) pna).

Definition entry_token (sna : list score_note) (d : gmap string pyval)
    : option nat :=
  sid ← d !! "score_id";
  tokenize_pitch_spelling
    (spelling_fields <$> np_select (λ n, bool_decide (VStr (sn_id n) = sid)) sna).

(** A loaded pair on which [create_data] does not raise: every entry has
    a label, and every match names one performance note and one score
    note whose spelling is in the table. *)
Definition resolvable (f : loaded_pair) : Prop :=
  Forall (λ d, is_Some (d !! "label")) (lp_alignment f) ∧
  Forall (λ d, is_match d →
            ∃ pn sn tok,
              names_perf_note (lp_pna f) d pn ∧
              names_score_note (lp_sna f) d sn ∧
              tokenize_pitch_spelling [spelling_fields sn] = Some tok)
         (lp_alignment f).

(** What [create_data] returns for one loaded pair: one row and one
    label per match entry, in order. *)
Definition matched_rows (f : loaded_pair) (X : list (list Q)) (y : list nat) : Prop :=
  let ms := filter is_match (lp_alignment f) in
  length X = length ms ∧ length y = length ms ∧
  Forall (λ row, length row = 14%nat) X ∧
  ∀ i d, ms !! i = Some d →
    ∃ pn sn row tok,
      names_perf_note (lp_pna f) d pn ∧
      names_score_note (lp_sna f) d sn ∧
      extract_features [pn] = Some row ∧ X !! i = Some row ∧
      tokenize_pitch_spelling [spelling_fields sn] = Some tok ∧
      y !! i = Some tok.

(** A small loaded pair: three performed notes, three score notes, and an
    alignment with two matches, a deletion and an insertion. *)
Definition example_pair : loaded_pair :=
  LoadedPair
    [PerfNote "p0" 60 (1#2); PerfNote "p1" 61 2; PerfNote "p2" 72 1]
    (produce_match [(VStr "s1", VStr "p0"); (VStr "s2", VStr "deletion");
                    (VStr "insertion", VStr "p2"); (VStr "s0", VStr "p1")])
    [ScoreNote "s0" "C" 1 4; ScoreNote "s1" "B" 1 3; ScoreNote "s2" "D" 0 4].

(** The entry names the performance note. *)
Definition references (pn : perf_note) (d : gmap string pyval) : Prop :=
  d !! "performance_id" = Some (VStr (pn_id pn)).

#[global] Instance references_dec pn d : Decision (references pn d).
Proof. unfold references. apply _. Defined.

(** The performance note has an alignment entry labelled "match" that
    names it; the first such entry. *)
Definition has_match (alignment : list (gmap string pyval)) (pn : perf_note) : Prop :=
  Exists (λ d, references pn d ∧ is_match d) alignment.

Definition first_match (alignment : list (gmap string pyval)) (pn : perf_note)
    : option (gmap string pyval) :=
  head (filter (λ d, references pn d ∧ is_match d) alignment).

(** [np.where(sna["id"] == match_note["score_id"])[0].item()] *)
Definition score_index (sna : list score_note) (d : gmap string pyval) : option nat :=
  sid ← d !! "score_id";
  item (np_where (λ n, bool_decide (VStr (sn_id n) = sid)) sna).

(** The mask entry of a performance note, by the match entries [ms]. *)
Definition mask_of (ms : list (gmap string pyval)) (pn : perf_note) : Q :=
  if decide (Exists (references pn) ms) then 1%Q else 0%Q.

(** [x] comes no later than [y] in a batch sorted by decreasing length. *)
Definition longer_eq {A B} (x y : list A * B) : Prop :=
  (length y.1 ≤ length x.1)%nat.

(** What [create_data] computes for one loaded pair, apart from the
    lists it appends to. *)
Definition file_data (f : loaded_pair) : option (list (list Q) * list nat) :=
  ms ← matched_notes (lp_alignment f);
  rows ← mapM (entry_features (lp_pna f)) ms;
  toks ← mapM (entry_token (lp_sna f)) ms;
  Some (rows, toks).

(** The note names of the table and the alters of the accidental dict. *)
Definition step_letters : list string := ["A"; "B"; "C"; "D"; "E"; "F"; "G"].

(** The number of [True] entries, as the float sum numpy takes. *)
Definition bool_sum (a : list bool) : Q :=
  foldr Qplus 0%Q ((λ b : bool, if b then 1%Q else 0%Q) <$> a).

(** A row of the alignment table that is neither a deletion nor an
    insertion. *)
Definition row_is_match (x : pyval * pyval) : Prop :=
  x.2 ≠ VStr "deletion" ∧ x.1 ≠ VStr "insertion".

#[global] Instance row_is_match_dec x : Decision (row_is_match x).
Proof. unfold row_is_match. apply _. Defined.

(** * Properties *)

(** ** The spelling table and its index *)

Lemma index_Some (l : list string) s i :
  index s l = Some i → l !! i = Some s.
Proof.
  revert i. induction l as [|x l IH]; intros i; simpl; [done|].
  case_decide as Hx.
  - intros [= <-]. by subst.
  - destruct (index s l) as [j|] eqn:Hj; simpl; [|done].
    intros [= <-]. simpl. by apply IH.
Qed.

Lemma index_None (l : list string) s :
  index s l = None ↔ s ∉ l.
Proof.
  induction l as [|x l IH]; simpl.
  - split; [intros _; apply not_elem_of_nil | done].
  - case_decide as Hx.
    + subst. split; [done|]. intros H. destruct H. apply list_elem_of_here.
    + rewrite not_elem_of_cons. destruct (index s l) eqn:Hj; simpl.
      * split; [done|]. intros [_ H]. by apply IH in H.
      * split; [|done]. intros _. split; [congruence|]. by apply IH.
Qed.

Lemma index_NoDup (l : list string) s i :
  NoDup l → l !! i = Some s → index s l = Some i.
Proof.
  intros Hnd. revert i. induction Hnd as [|x l Hx Hnd IH]; intros i; [done|].
  destruct i as [|i]; simpl.
  - intros [= ->]. by rewrite decide_True.
  - intros Hi. rewrite decide_False.
    + by rewrite (IH _ Hi).
    + intros ->. apply Hx. by eapply list_elem_of_lookup_2.
Qed.

(** The comprehension maps every string to its first position. *)
Lemma index_dict_fold (l l' : list string) (m : gmap string nat) s :
  (∀ p, p ∈ l' → p ∈ l) →
  foldl (λ m p, match index p l with Some i => <[p:=i]> m | None => m end) m l' !! s
  = if decide (s ∈ l') then index s l else m !! s.
Proof.
  revert m. induction l' as [|x l' IH]; intros m Hsub; cbn [foldl].
  - rewrite decide_False; [done | apply not_elem_of_nil].
  - rewrite IH; [|intros p Hp; apply Hsub; by right].
    destruct (index x l) as [i|] eqn:Hx.
    + destruct (decide (s ∈ l')) as [Hin|Hin].
      * rewrite decide_True; [done | by right].
      * destruct (decide (s = x)) as [->|Hne].
        -- rewrite decide_True; [|by left]. by rewrite lookup_insert_eq.
        -- rewrite decide_False; [by rewrite lookup_insert_ne|].
           rewrite not_elem_of_cons. tauto.
    + apply index_None in Hx. destruct Hx. apply Hsub. by left.
Qed.

Lemma index_dict_lookup (l : list string) s :
  index_dict l !! s = index s l.
Proof.
  unfold index_dict. rewrite index_dict_fold; [|done].
  case_decide as Hin; [done|]. rewrite lookup_empty.
  symmetry. by apply index_None.
Qed.

Lemma accepted_pitches_NoDup : NoDup accepted_pitches.
Proof. apply (bool_decide_unpack _). by vm_compute. Qed.

Lemma accepted_pitches_length : length accepted_pitches = 35%nat.
Proof. reflexivity. Qed.

Lemma pitch_to_ix_lookup s i :
  pitch_to_ix !! s = Some i ↔ accepted_pitches !! i = Some s.
Proof.
  unfold pitch_to_ix. rewrite index_dict_lookup. split.
  - apply index_Some.
  - apply index_NoDup, accepted_pitches_NoDup.
Qed.

Lemma pitch_to_ix_bound s i :
  pitch_to_ix !! s = Some i → (i < 35)%nat.
Proof.
  intros H. apply pitch_to_ix_lookup, lookup_lt_Some in H.
  by rewrite accepted_pitches_length in H.
Qed.

Lemma n_out_pitch_35 : n_out_pitch = 35%nat.
Proof. by vm_compute. Qed.

(** The two accidental dicts are inverse to each other. *)
Lemma alter_to_str_cases al a :
  alter_to_str !! al = Some a →
  (al, a) ∈ [(0, ""); (1, "#"); (2, "##"); (-1, "-"); (-2, "--")].
Proof. intros H. by apply elem_of_list_to_map_2 in H. Qed.

Lemma str_to_alter_inverse al a :
  alter_to_str !! al = Some a → str_to_alter !! a = Some al.
Proof.
  intros H. apply alter_to_str_cases in H.
  repeat (apply elem_of_cons in H as [[= -> ->]|H]; [by vm_compute|]).
  by apply elem_of_nil in H.
Qed.

Lemma tokenize_singleton st al o :
  tokenize_pitch_spelling [Spelling st al o]
  = a ← alter_to_str !! al; pitch_to_ix !! (st +:+ a).
Proof. reflexivity. Qed.

Lemma PITCHES_get_Some k names :
  PITCHES_get k = Some names → (k, names) ∈ PITCHES.
Proof.
  unfold PITCHES_get. intros H.
  destruct (list_find _ PITCHES) as [[i [k' names']]|] eqn:Hf; [|done].
  simpl in H. injection H as <-.
  apply list_find_Some in Hf as (Hi & Hk & _). simpl in Hk. subst k'.
  by eapply list_elem_of_lookup_2.
Qed.

(** C3. The keys of [PITCHES] are exactly 0..11, [PITCHES[0]] is
    [["C", "B#", "D--"]], and every name listed under a key [k] spells a
    pitch of class [k]: the semitone of its letter plus one per sharp and
    minus one per flat is congruent to [k] modulo 12. *)
Theorem PITCHES_valid :
  fst <$> PITCHES = seq 0 12 ∧
  (∀ k, is_Some (PITCHES_get k) ↔ (k < 12)%nat) ∧
  PITCHES_get 0 = Some ["C"; "B#"; "D--"] ∧
  (∀ k names name,
     PITCHES_get k = Some names → name ∈ names → valid_for k name).
Proof.
  split; [reflexivity|]. split; [|split; [reflexivity|]].
  - intros k. split.
    + intros [names H]. apply PITCHES_get_Some in H.
      apply (list_elem_of_fmap_2 fst) in H.
      change (k ∈ seq 0 12) in H.
      apply elem_of_seq in H. lia.
    + intros H. do 12 (destruct k as [|k]; [by eexists|]). lia.
  - intros k names name Hk Hin. apply PITCHES_get_Some in Hk.
    unfold PITCHES in Hk.
    repeat (apply elem_of_cons in Hk as [[= -> ->]|Hk];
      [ repeat (apply elem_of_cons in Hin as [->|Hin];
                  [eexists; split; reflexivity|]);
        by apply elem_of_nil in Hin |]).
    by apply elem_of_nil in Hk.
Qed.

Lemma PITCHES_valid_witness : valid_for 10 "C--".
Proof.
  apply (proj2 (proj2 (proj2 PITCHES_valid)) 10%nat ["A#"; "B-"; "C--"] "C--").
  - reflexivity.
  - apply list_elem_of_In. simpl. tauto.
Defined.

(** C10. [accepted_pitches] has 35 pairwise distinct names, so
    [pitch_to_ix] is a bijection between the names and 0..34, and every
    token [tokenize_pitch_spelling] returns lies below
    [n_out_pitch = len(pitch_to_ix) = 35]; a note whose step plus
    accidental string is in the table does get a token. *)
Theorem pitch_to_ix_bijection :
  length accepted_pitches = 35%nat ∧
  NoDup accepted_pitches ∧
  n_out_pitch = 35%nat ∧
  (∀ s i, pitch_to_ix !! s = Some i ↔ accepted_pitches !! i = Some s) ∧
  (∀ s, s ∈ accepted_pitches → ∃ i, pitch_to_ix !! s = Some i ∧ (i < 35)%nat) ∧
  (∀ i, (i < 35)%nat → ∃ s, s ∈ accepted_pitches ∧ pitch_to_ix !! s = Some i) ∧
  (∀ ps_note tok,
     tokenize_pitch_spelling ps_note = Some tok → (tok < n_out_pitch)%nat) ∧
  (∀ st al o a,
     alter_to_str !! al = Some a → st +:+ a ∈ accepted_pitches →
     ∃ tok, tokenize_pitch_spelling [Spelling st al o] = Some tok
            ∧ (tok < n_out_pitch)%nat).
Proof.
  split; [apply accepted_pitches_length|].
  split; [apply accepted_pitches_NoDup|].
  split; [apply n_out_pitch_35|].
  split; [apply pitch_to_ix_lookup|].
  assert (Hin : ∀ s, s ∈ accepted_pitches →
                     ∃ i, pitch_to_ix !! s = Some i ∧ (i < 35)%nat).
  { intros s Hs. apply list_elem_of_lookup_1 in Hs as [i Hi].
    exists i. split; [by apply pitch_to_ix_lookup|].
    apply lookup_lt_Some in Hi. by rewrite accepted_pitches_length in Hi. }
  split; [exact Hin|]. split; [|split].
  - intros i Hi. rewrite <- accepted_pitches_length in Hi.
    apply lookup_lt_is_Some_2 in Hi as [s Hs]. exists s. split.
    + by eapply list_elem_of_lookup_2.
    + by apply pitch_to_ix_lookup.
  - intros ps_note tok. unfold tokenize_pitch_spelling. intros H.
    rewrite n_out_pitch_35.
    destruct (item (sp_alter <$> ps_note)) as [a|]; [simpl in H|done].
    destruct (alter_to_str !! a) as [alter|]; [simpl in H|done].
    destruct (item (sp_step <$> ps_note)) as [s|]; [simpl in H|done].
    by eapply pitch_to_ix_bound.
  - intros st al o a Ha Hs. rewrite tokenize_singleton, Ha. simpl.
    destruct (Hin _ Hs) as (i & Hi & Hlt). exists i.
    by rewrite n_out_pitch_35.
Qed.

Lemma pitch_to_ix_bijection_witness :
  ∃ tok, tokenize_pitch_spelling [Spelling "A" (-2) 4] = Some tok
         ∧ (tok < n_out_pitch)%nat.
Proof.
  apply (proj2 (proj2 (proj2 (proj2 (proj2 (proj2 (proj2
           pitch_to_ix_bijection)))))) "A" (-2) 4 "--").
  - reflexivity.
  - apply list_elem_of_In. vm_compute. tauto.
Defined.

Lemma str_first_rest st a :
  String.length st = 1%nat →
  str_first (st +:+ a) = Some st ∧ str_rest (st +:+ a) = a.
Proof.
  destruct st as [|c [|c' st]]; simpl; try done.
Qed.

(** C4. Tokenising a (step, alter) pair of the table and decoding the
    token the way [PKSpell.predict] does (first character as the step,
    the rest through the accidental dict as the alter) gives the pair
    back. *)
Theorem tokenize_decode_roundtrip st al o a :
  String.length st = 1%nat →
  alter_to_str !! al = Some a →
  st +:+ a ∈ accepted_pitches →
  ∃ tok, tokenize_pitch_spelling [Spelling st al o] = Some tok ∧
    ∀ pna i n, pna !! i = Some n →
      ∃ sp, decode_spelling pna i tok = Some sp
            ∧ sp_step sp = st ∧ sp_alter sp = al.
Proof.
  intros Hlen Ha Hin.
  apply list_elem_of_lookup_1 in Hin as [tok Htok].
  exists tok. split.
  - rewrite tokenize_singleton, Ha. simpl. by apply pitch_to_ix_lookup.
  - intros pna i n Hn. unfold decode_spelling.
    rewrite Htok. simpl.
    destruct (str_first_rest st a Hlen) as [-> ->]. simpl.
    rewrite (str_to_alter_inverse _ _ Ha). simpl. rewrite Hn. simpl.
    by eexists.
Qed.

Lemma tokenize_decode_roundtrip_witness :
  ∃ tok, tokenize_pitch_spelling [Spelling "B" 1 3] = Some tok ∧
    ∀ pna i n, pna !! i = Some n →
      ∃ sp, decode_spelling pna i tok = Some sp
            ∧ sp_step sp = "B" ∧ sp_alter sp = 1.
Proof.
  apply (tokenize_decode_roundtrip "B" 1 3 "#").
  - reflexivity.
  - reflexivity.
  - apply list_elem_of_In. vm_compute. tauto.
Defined.

(** ** Feature vectors *)

Lemma extract_features_singleton n :
  extract_features [n] = Some (note_features n).
Proof. reflexivity. Qed.

Lemma zip_with_replicate_l {A B C} (f : A → B → C) (c : A) (l : list B) :
  zip_with f (replicate (length l) c) l = (λ x, f c x) <$> l.
Proof. induction l as [|x l IH]; csimpl; [done | by f_equal]. Qed.

Lemma zip_with_fmap_same {A B C} (g : B → A → C) (h : A → B) (l : list A) :
  zip_with g (h <$> l) l = (λ x, g (h x) x) <$> l.
Proof. induction l as [|x l IH]; csimpl; [done | by f_equal]. Qed.

Lemma predict_features_fmap pna :
  predict_features pna = note_features <$> pna.
Proof.
  unfold predict_features. rewrite zip_with_replicate_l.
  rewrite (zip_with_fmap_same
             (λ row n, <[12%nat := (inject_Z (pn_pitch n) / 127)%Q]> row)).
  by rewrite (zip_with_fmap_same
                (λ row n, <[13%nat := (pn_duration_sec n / 60)%Q]> row)).
Qed.

Lemma pitch_class_lt p : (Z.to_nat (p `mod` 12) < 12)%nat.
Proof. pose proof (Z.mod_pos_bound p 12). lia. Qed.

Lemma note_features_length n : length (note_features n) = 14%nat.
Proof. unfold note_features. by rewrite !length_insert. Qed.

Lemma note_features_one_hot n k :
  (k < 12)%nat →
  note_features n !! k
  = Some (if decide (k = Z.to_nat (pn_pitch n `mod` 12)) then 1%Q else 0%Q).
Proof.
  intros Hk. unfold note_features.
  rewrite !list_lookup_insert_ne by lia.
  pose proof (pitch_class_lt (pn_pitch n)) as Hj.
  case_decide as Hd.
  - subst k. apply list_lookup_insert_eq. rewrite length_replicate. lia.
  - rewrite list_lookup_insert_ne by done.
    apply lookup_replicate_2. lia.
Qed.

Lemma note_features_12 n :
  note_features n !! 12%nat = Some (inject_Z (pn_pitch n) / 127)%Q.
Proof.
  unfold note_features. rewrite list_lookup_insert_ne by lia.
  apply list_lookup_insert_eq.
  rewrite length_insert, length_replicate. lia.
Qed.

Lemma note_features_13 n :
  note_features n !! 13%nat = Some (pn_duration_sec n / 60)%Q.
Proof.
  unfold note_features. apply list_lookup_insert_eq.
  rewrite !length_insert, length_replicate. lia.
Qed.

(** C1. For a performed note with MIDI pitch [p] and duration [d],
    [extract_features] returns 14 entries: among the first twelve, entry
    [p mod 12] is 1 and the others are 0; entry 12 is [p/127]; entry 13 is
    [d/60]. The rows [PKSpell.predict] builds are the same vectors. *)
Theorem extract_features_spec n :
  ∃ features,
    extract_features [n] = Some features ∧
    length features = 14%nat ∧
    0 ≤ pn_pitch n `mod` 12 < 12 ∧
    (∀ k, (k < 12)%nat →
       features !! k
       = Some (if decide (Z.of_nat k = pn_pitch n `mod` 12) then 1%Q else 0%Q)) ∧
    features !! 12%nat = Some (inject_Z (pn_pitch n) / 127)%Q ∧
    features !! 13%nat = Some (pn_duration_sec n / 60)%Q ∧
    (∀ pna i, pna !! i = Some n → predict_features pna !! i = Some features).
Proof.
  exists (note_features n).
  split; [apply extract_features_singleton|].
  split; [apply note_features_length|].
  pose proof (Z.mod_pos_bound (pn_pitch n) 12) as Hm.
  split; [lia|]. split; [|split; [apply note_features_12|split]].
  - intros k Hk. rewrite note_features_one_hot by done.
    f_equal. repeat case_decide; try done; lia.
  - apply note_features_13.
  - intros pna i Hi. rewrite predict_features_fmap, list_lookup_fmap.
    by rewrite Hi.
Qed.

Lemma extract_features_spec_witness :
  ∃ features,
    extract_features [PerfNote "n0" 61 (1#2)] = Some features ∧
    features !! 1%nat = Some 1%Q ∧ features !! 0%nat = Some 0%Q.
Proof.
  destruct (extract_features_spec (PerfNote "n0" 61 (1#2)))
    as (features & Hf & _ & _ & Hhot & _).
  exists features. split; [exact Hf|]. split.
  - apply (Hhot 1%nat). lia.
  - apply (Hhot 0%nat). lia.
Defined.

(** The description's bound fails for a note held longer than a minute. *)
Lemma features_unit_interval_counterexample :
  let n := PerfNote "n0" 60 120 in
  (0 ≤ pn_pitch n ≤ 127)%Z ∧ (0 <= pn_duration_sec n)%Q ∧
  ∃ features v,
    extract_features [n] = Some features ∧
    predict_features [n] = [features] ∧
    features !! 13%nat = Some v ∧ ¬ (v <= 1)%Q.
Proof.
  simpl. split; [lia|]. split; [done|].
  eexists _, _. split; [reflexivity|]. split; [reflexivity|].
  split; [reflexivity|]. by vm_compute.
Qed.

(** C2, amended. For a note with MIDI pitch in 0..127 and a non-negative
    duration [d], entries 0..12 of the feature vector lie in [0,1]; entry
    13 is non-negative, and it is at most 1 exactly when [d] is at most
    60 seconds. *)
Theorem features_bounds n :
  (0 ≤ pn_pitch n ≤ 127)%Z →
  (0 <= pn_duration_sec n)%Q →
  ∃ features,
    extract_features [n] = Some features ∧
    (∀ pna i, pna !! i = Some n → predict_features pna !! i = Some features) ∧
    (∀ k v, (k < 13)%nat → features !! k = Some v → (0 <= v ∧ v <= 1)%Q) ∧
    ∃ v13, features !! 13%nat = Some v13 ∧ (0 <= v13)%Q ∧
           ((v13 <= 1)%Q ↔ (pn_duration_sec n <= 60)%Q).
Proof.
  intros Hp Hd. exists (note_features n).
  split; [apply extract_features_singleton|]. split.
  { intros pna i Hi. by rewrite predict_features_fmap, list_lookup_fmap, Hi. }
  pose proof (note_features_13 n) as H13. split.
  - intros k v Hk Hv. destruct (decide (k = 12%nat)) as [->|Hne].
    + rewrite note_features_12 in Hv. injection Hv as <-.
      destruct Hp as [Hp0 Hp1].
      rewrite Zle_Qle in Hp0, Hp1.
      set (q := inject_Z (pn_pitch n)) in *.
      change (inject_Z 0) with 0%Q in Hp0.
      change (inject_Z 127) with 127%Q in Hp1.
      split.
      * apply Qle_shift_div_l; [done|]. lra.
      * apply Qle_shift_div_r; [done|]. lra.
    + rewrite note_features_one_hot in Hv by lia. injection Hv as <-.
      case_decide; split; done.
  - exists (pn_duration_sec n / 60)%Q. split; [done|]. split.
    + apply Qle_shift_div_l; [done|]. lra.
    + split; intros H.
      * apply (Qmult_le_r _ _ 60) in H; [|done].
        rewrite Qmult_comm, Qmult_div_r in H by done. lra.
      * apply Qle_shift_div_r; [done|]. lra.
Qed.

Lemma features_bounds_witness :
  ∃ features,
    extract_features [PerfNote "n0" 60 (1#2)] = Some features ∧
    (∀ pna i, pna !! i = Some (PerfNote "n0" 60 (1#2)) →
              predict_features pna !! i = Some features) ∧
    (∀ k v, (k < 13)%nat → features !! k = Some v → (0 <= v ∧ v <= 1)%Q) ∧
    ∃ v13, features !! 13%nat = Some v13 ∧ (0 <= v13)%Q ∧
           ((v13 <= 1)%Q ↔ (1#2 <= 60)%Q).
Proof.
  apply (features_bounds (PerfNote "n0" 60 (1#2))).
  - simpl. lia.
  - simpl. done.
Defined.

(** ** Alignment conversion *)

Lemma foldl_snoc_fmap {A B} (f : A → B) (l : list A) (acc : list B) :
  foldl (λ acc x, acc ++ [f x]) acc l = acc ++ (f <$> l).
Proof.
  revert acc. induction l as [|x l IH]; intros acc; csimpl.
  - by rewrite app_nil_r.
  - rewrite IH. by rewrite <- app_assoc.
Qed.

Lemma produce_match_fmap data :
  produce_match data = produce_match_dict <$> data.
Proof. unfold produce_match. by rewrite foldl_snoc_fmap. Qed.

(** C5. [produce_match] turns the rows of the alignment table, in order,
    into one dict each: a deletion carrying the row's [xml_id] when
    [midi_id] is "deletion"; otherwise an insertion carrying [str(midi_id)]
    when [xml_id] is "insertion"; otherwise a match carrying both. *)
Theorem produce_match_rows (data : list (pyval * pyval)) :
  length (produce_match data) = length data ∧
  ∀ i xml_id midi_id,
    data !! i = Some (xml_id, midi_id) →
    (midi_id = VStr "deletion" →
       produce_match data !! i
       = Some {[ "label" := VStr "deletion"; "score_id" := xml_id ]}) ∧
    (midi_id ≠ VStr "deletion" → xml_id = VStr "insertion" →
       produce_match data !! i
       = Some {[ "label" := VStr "insertion";
                 "performance_id" := VStr (py_str midi_id) ]}) ∧
    (midi_id ≠ VStr "deletion" → xml_id ≠ VStr "insertion" →
       produce_match data !! i
       = Some {[ "label" := VStr "match"; "score_id" := xml_id;
                 "performance_id" := VStr (py_str midi_id) ]}).
Proof.
  rewrite produce_match_fmap. split; [apply length_fmap|].
  intros i xml_id midi_id Hi. rewrite list_lookup_fmap, Hi. simpl.
  unfold produce_match_dict. simpl.
  split; [|split].
  - intros ->. by rewrite bool_decide_true.
  - intros Hm ->. rewrite bool_decide_false by done.
    by rewrite bool_decide_true.
  - intros Hm Hx. by rewrite !bool_decide_false.
Qed.

Lemma produce_match_rows_witness :
  produce_match
    [(VStr "n1", VStr "deletion"); (VStr "insertion", VInt 7); (VStr "n2", VInt 8)]
    !! 2%nat
  = Some {[ "label" := VStr "match"; "score_id" := VStr "n2";
            "performance_id" := VStr "8" ]}.
Proof.
  apply (proj2 (produce_match_rows
                  [(VStr "n1", VStr "deletion"); (VStr "insertion", VInt 7);
                   (VStr "n2", VInt 8)]) 2%nat (VStr "n2") (VInt 8)).
  - reflexivity.
  - discriminate.
  - discriminate.
Defined.

(** ** The octave of a predicted spelling *)

Lemma py_int_div12 p : py_int (inject_Z p / 12)%Q = Z.quot p 12.
Proof. unfold py_int. simpl. by rewrite Z.mul_1_r. Qed.

Lemma py_int_div12_floor p : 0 ≤ p → py_int (inject_Z p / 12)%Q = p `div` 12.
Proof. intros Hp. rewrite py_int_div12. apply Z.quot_div_nonneg; lia. Qed.

(** Every index of the table decodes to a step and an alter. *)
Lemma accepted_pitches_decodable pp :
  (pp < 35)%nat →
  ∃ name st al,
    accepted_pitches !! pp = Some name ∧ str_first name = Some st
    ∧ str_to_alter !! str_rest name = Some al.
Proof.
  intros Hpp.
  do 35 (destruct pp as [|pp]; [by eexists _, _, _; repeat split|]).
  lia.
Qed.

Lemma argmax_from_lt best_i best i row :
  (best_i < i)%nat → (argmax_from best_i best i row < i + length row)%nat.
Proof.
  revert best_i best i. induction row as [|x row IH]; intros best_i best i Hi; simpl.
  - lia.
  - destruct (Qlt_le_dec best x).
    + specialize (IH i x (S i)). lia.
    + specialize (IH best_i best (S i)). lia.
Qed.

Lemma argmax_lt row : row ≠ [] → ∃ i, argmax row = Some i ∧ (i < length row)%nat.
Proof.
  destruct row as [|x row]; [done|]. intros _. eexists. split; [done|].
  pose proof (argmax_from_lt 0 x 1 row). simpl. lia.
Qed.

Lemma argmax_rows_Some (scores : list (list Q)) n :
  n ≠ 0%nat → Forall (λ row, length row = n) scores →
  ∃ labels, argmax_rows scores = Some labels ∧ length labels = length scores
            ∧ Forall (λ pp, (pp < n)%nat) labels.
Proof.
  intros Hn. induction 1 as [|row scores Hrow _ IH]; simpl.
  - by exists [].
  - destruct IH as (labels & -> & Hlen & Hall).
    destruct (argmax_lt row) as (i & -> & Hi).
    { intros ->. simpl in Hrow. lia. }
    simpl. eexists. split; [done|]. split; [simpl; lia|].
    constructor; [lia | done].
Qed.

Lemma spelling_array_from_Some pna i predicted :
  Forall (λ pp, (pp < 35)%nat) predicted →
  (i + length predicted ≤ length pna)%nat →
  ∃ out, spelling_array_from pna i predicted = Some out ∧
    length out = length predicted ∧
    ∀ k n, (k < length predicted)%nat → pna !! (i + k)%nat = Some n →
      ∃ sp, out !! k = Some sp
            ∧ sp_octave sp = py_int (inject_Z (pn_pitch n) / 12)%Q - 1.
Proof.
  intros Hall. revert i. induction Hall as [|pp predicted Hpp _ IH]; intros i Hlen.
  - exists []. split; [done|]. split; [done|]. simpl. lia.
  - simpl in Hlen. destruct (IH (S i)) as (out & Hout & Hl & Hk); [lia|].
    destruct (accepted_pitches_decodable pp Hpp) as (name & st & al & Hn & Hs & Ha).
    destruct (lookup_lt_is_Some_2 pna i) as [n0 Hn0]; [lia|].
    cbn [spelling_array_from]. unfold decode_spelling.
    rewrite Hn. simpl. rewrite Hs. simpl. rewrite Ha. simpl.
    rewrite Hn0. simpl. rewrite Hout. simpl.
    eexists. split; [done|]. split; [simpl; lia|].
    intros [|k] n Hklt Hlook.
    + rewrite Nat.add_0_r in Hlook. rewrite Hn0 in Hlook.
      injection Hlook as <-. by eexists.
    + simpl. apply Hk; [simpl in Hklt; lia|].
      by replace (S i + k)%nat with (i + S k)%nat by lia.
Qed.

Section Predict.
  (** The trained network: any function that gives one row of
      [n_out_pitch] scores per input row. *)
  Variable compute_outputs : list (list Q) → list (list Q).
  Hypothesis compute_outputs_shape : ∀ features,
    length (compute_outputs features) = length features ∧
    Forall (λ row, length row = n_out_pitch) (compute_outputs features).

(** C9. For a performance of MIDI notes (other than a single note, whose
    squeezed prediction cannot be iterated), [predict] returns one
    spelling per note whose octave is [floor(pitch / 12) - 1], whatever
    step and accidental the network chose; MIDI pitch 60 decoded with the
    token of "B#" gets octave 4. *)
Theorem predict_octave (pna : list perf_note) :
  length pna ≠ 1%nat →
  Forall (λ n, 0 ≤ pn_pitch n) pna →
  (∃ out, predict compute_outputs pna = Some out ∧
     length out = length pna ∧
     ∀ i n, pna !! i = Some n →
       ∃ sp, out !! i = Some sp ∧ sp_octave sp = pn_pitch n `div` 12 - 1) ∧
  pitch_to_ix !! "B#" = Some 1%nat ∧
  ∀ id d, decode_spelling [PerfNote id 60 d] 0 1 = Some (Spelling "B" 1 4).
Proof.
  intros Hlen Hpos. split; [|split; [by vm_compute | done]].
  unfold predict.
  destruct (compute_outputs_shape (predict_features pna)) as [Hrows Hcols].
  destruct (argmax_rows_Some _ n_out_pitch ltac:(by rewrite n_out_pitch_35) Hcols)
    as (labels & -> & Hl & Hall).
  rewrite n_out_pitch_35 in Hall.
  rewrite Hrows, predict_features_fmap, length_fmap in Hl.
  simpl. unfold iter_squeezed. rewrite decide_False by congruence. simpl.
  destruct (spelling_array_from_Some pna 0 labels Hall) as (out & -> & Ho & Hk).
  { simpl. lia. }
  exists out. split; [done|]. split; [congruence|].
  intros i n Hi.
  destruct (Hk i n) as (sp & Hsp & Hoct).
  { apply lookup_lt_Some in Hi. lia. }
  { done. }
  exists sp. split; [done|]. rewrite Hoct, py_int_div12_floor; [done|].
  rewrite Forall_forall in Hpos. apply Hpos.
  by eapply list_elem_of_lookup_2.
Qed.

End Predict.

Lemma predict_octave_witness :
  ∃ out,
    predict (λ features, (λ _, replicate 35 0%Q) <$> features)
      [PerfNote "n0" 60 (1#2); PerfNote "n1" 71 (1#4)] = Some out ∧
    length out = 2%nat ∧
    ∀ i n, [PerfNote "n0" 60 (1#2); PerfNote "n1" 71 (1#4)] !! i = Some n →
      ∃ sp, out !! i = Some sp ∧ sp_octave sp = pn_pitch n `div` 12 - 1.
Proof.
  apply (predict_octave (λ features, (λ _, replicate 35 0%Q) <$> features)).
  - intros features. split; [apply length_fmap|].
    apply Forall_fmap, Forall_forall. intros row _. by vm_compute.
  - simpl. lia.
  - repeat constructor; simpl; lia.
Defined.

(** ** Batching *)

Section Collate.
  Context {A B : Type}.
  Implicit Types (x : list A * B) (l data : list (list A * B)).

Lemma insert_desc_perm x l : insert_desc x l ≡ₚ x :: l.
Proof.
  induction l as [|y l IH]; simpl; [done|].
  case_decide; [|done]. rewrite IH. apply Permutation_swap.
Qed.

Lemma sort_desc_perm data : sort_desc data ≡ₚ data.
Proof.
  induction data as [|x data IH]; simpl; [done|].
  by rewrite insert_desc_perm, IH.
Qed.

Lemma insert_desc_sorted x l :
  StronglySorted longer_eq l → StronglySorted longer_eq (insert_desc x l).
Proof.
  induction 1 as [|y l Hs IH Hall]; simpl.
  - repeat constructor.
  - case_decide as Hlt.
    + constructor; [done|]. rewrite insert_desc_perm.
      constructor; [unfold longer_eq; lia | done].
    + constructor; [by constructor|]. constructor.
      * unfold longer_eq. lia.
      * eapply Forall_impl; [exact Hall|]. unfold longer_eq. intros z. lia.
Qed.

Lemma sort_desc_sorted data : StronglySorted longer_eq (sort_desc data).
Proof.
  induction data as [|x data IH]; simpl; [constructor|].
  by apply insert_desc_sorted.
Qed.

Lemma sorted_lengths data :
  StronglySorted longer_eq data →
  StronglySorted ge ((length ∘ fst) <$> data).
Proof.
  induction 1 as [|y l Hs IH Hall]; csimpl; [constructor|].
  constructor; [done|].
  apply Forall_fmap. eapply Forall_impl; [exact Hall|].
  unfold longer_eq. intros z. simpl. lia.
Qed.

(** The head of the sorted batch is the first pair of maximal length. *)
Lemma sort_desc_head data :
  data ≠ [] →
  ∃ x i, head (sort_desc data) = Some x ∧ data !! i = Some x ∧
    (∀ y, y ∈ data → (length y.1 ≤ length x.1)%nat) ∧
    (∀ j y, (j < i)%nat → data !! j = Some y → (length y.1 < length x.1)%nat).
Proof.
  induction data as [|x data IH]; [done|]. intros _.
  destruct data as [|x' data].
  - exists x, 0%nat. simpl. split; [done|]. split; [done|]. split.
    + intros y Hy. apply list_elem_of_singleton in Hy. by subst.
    + intros j y Hj. lia.
  - destruct IH as (h & i & Hh & Hi & Hmax & Hfirst); [done|].
    change (sort_desc (x :: x' :: data))
      with (insert_desc x (sort_desc (x' :: data))).
    destruct (sort_desc (x' :: data)) as [|h' rest]; [done|].
    simpl in Hh. injection Hh as ->. simpl.
    case_decide as Hlt.
    + exists h, (S i). split; [done|]. split; [done|]. split.
      * intros y Hy. apply elem_of_cons in Hy as [->|Hy]; [lia | by apply Hmax].
      * intros [|j] y Hj Hy; simpl in Hy.
        -- injection Hy as <-. done.
        -- apply (Hfirst j); [lia | done].
    + exists x, 0%nat. split; [done|]. split; [done|]. split.
      * intros y Hy. apply elem_of_cons in Hy as [->|Hy]; [lia|].
        specialize (Hmax y Hy). lia.
      * intros j y Hj. lia.
Qed.
End Collate.

(** C8. On a non-empty batch [collate_ps] returns the source (as float)
    and target of one pair only, the first pair of maximal source length,
    which heads the batch sorted by decreasing length; the other pairs are
    dropped, while the returned lengths are those of all sources, in
    decreasing order. A batch of one pair gives that pair. *)
Theorem collate_ps_first_longest to_float32
    (data : list (list (list Q) * list nat)) :
  data ≠ [] →
  (∃ s t lengths i,
     collate_ps to_float32 data = Some (tensor_float to_float32 s, lengths, t) ∧
     head (sort_desc data) = Some (s, t) ∧
     data !! i = Some (s, t) ∧
     (∀ y, y ∈ data → (length y.1 ≤ length s)%nat) ∧
     (∀ j y, (j < i)%nat → data !! j = Some y → (length y.1 < length s)%nat) ∧
     lengths ≡ₚ (λ y, length y.1) <$> data ∧
     length lengths = length data ∧
     StronglySorted ge lengths) ∧
  ∀ s1 t1,
    collate_ps to_float32 [(s1, t1)]
    = Some (tensor_float to_float32 s1, [length s1], t1).
Proof.
  intros Hne. split; [|done].
  destruct (sort_desc_head data Hne) as ([s t] & i & Hh & Hi & Hmax & Hfirst).
  exists s, t, (length <$> (fst <$> sort_desc data)), i.
  split; [|split; [done|split; [done|split; [done|split; [done|]]]]].
  - unfold collate_ps. destruct (sort_desc data) as [|[s' t'] rest]; [done|].
    simpl in Hh. injection Hh as -> ->. done.
  - split; [|split].
    + rewrite <- list_fmap_compose. by rewrite sort_desc_perm.
    + by rewrite !length_fmap, sort_desc_perm.
    + rewrite <- list_fmap_compose. apply sorted_lengths, sort_desc_sorted.
Qed.

Lemma collate_ps_first_longest_witness :
  ∃ s t lengths i,
    collate_ps Qred [([[1%Q]], [3%nat]);
                     ([[1%Q]; [2%Q]], [4%nat; 5%nat]);
                     ([[3%Q]; [2%Q]], [6%nat; 7%nat])]
    = Some (tensor_float Qred s, lengths, t) ∧
    s = [[1%Q]; [2%Q]] ∧ t = [4%nat; 5%nat] ∧ lengths = [2; 2; 1]%nat ∧ i = 1%nat.
Proof.
  destruct (collate_ps_first_longest Qred
              [([[1%Q]], [3%nat]);
               ([[1%Q]; [2%Q]], [4%nat; 5%nat]);
               ([[3%Q]; [2%Q]], [6%nat; 7%nat])])
    as [(s & t & lengths & i & Hc & Hh & _) _]; [discriminate|].
  exists s, t, lengths, 1%nat. vm_compute in Hh. injection Hh as <- <-.
  vm_compute in Hc. injection Hc as <-.
  repeat split; reflexivity.
Defined.

(** ** Matched notes *)

Lemma matched_notes_filter alignment :
  Forall (λ d, is_Some (d !! "label")) alignment →
  matched_notes alignment = Some (filter is_match alignment).
Proof.
  induction 1 as [|d alignment [label Hl] _ IH]; [done|].
  cbn [matched_notes]. rewrite Hl, IH. simpl. f_equal.
  case_bool_decide as Hb.
  - subst label. by rewrite filter_cons_True.
  - rewrite filter_cons_False; [done|]. unfold is_match. congruence.
Qed.

Lemma create_data_row_unfold pna sna Xy idx d :
  create_data_row pna sna Xy idx d
  = row ← entry_features pna d; tok ← entry_token sna d;
    Some (<[idx := row]> Xy.1, <[idx := tok]> Xy.2).
Proof.
  unfold create_data_row, entry_features, entry_token.
  destruct (d !! "performance_id") as [pid|]; simpl; [|done].
  destruct (extract_features _) as [row|]; simpl; [|done].
  by destruct (d !! "score_id").
Qed.

(** The inner loop fills the next [length ms] rows of [X] and [y]. *)
Lemma create_data_rows_fill pna sna ms rows toks :
  Forall2 (λ d row, entry_features pna d = Some row) ms rows →
  Forall2 (λ d tok, entry_token sna d = Some tok) ms toks →
  ∀ (preX : list (list Q)) (prey : list nat) zX zy,
    length preX = length prey →
    for_enumerate (create_data_row pna sna) (length preX) ms
      (preX ++ replicate (length ms) zX, prey ++ replicate (length ms) zy)
    = Some (preX ++ rows, prey ++ toks).
Proof.
  intros Hrows. revert toks.
  induction Hrows as [|d row ms rows Hrow _ IH]; intros toks Htoks preX prey zX zy Hlen.
  - apply Forall2_nil_inv_l in Htoks as ->. done.
  - apply Forall2_cons_inv_l in Htoks as (tok & toks' & Htok & Htoks & ->).
    cbn [for_enumerate]. rewrite create_data_row_unfold, Hrow, Htok. simpl.
    rewrite (insert_app_r_alt preX) by done.
    rewrite (insert_app_r_alt prey) by lia.
    rewrite Hlen, !Nat.sub_diag. simpl. rewrite <- Hlen.
    specialize (IH toks' Htoks (preX ++ [row]) (prey ++ [tok]) zX zy).
    rewrite !length_app in IH. simpl in IH.
    rewrite <- !app_assoc in IH. simpl in IH.
    rewrite Nat.add_1_r in IH. apply IH. lia.
Qed.

Lemma entry_features_names pna d pn :
  names_perf_note pna d pn → entry_features pna d = Some (note_features pn).
Proof. intros (pid & Hpid & Hsel). unfold entry_features. by rewrite Hpid; simpl; rewrite Hsel. Qed.

Lemma entry_token_names sna d sn :
  names_score_note sna d sn →
  entry_token sna d = tokenize_pitch_spelling [spelling_fields sn].
Proof. intros (sid & Hsid & Hsel). unfold entry_token. by rewrite Hsid; simpl; rewrite Hsel. Qed.

Lemma create_data_file_resolvable f acc :
  resolvable f →
  ∃ X y, create_data_file acc f = Some (acc.1 ++ [X], acc.2 ++ [y])
         ∧ matched_rows f X y.
Proof.
  intros [Hlab Hres]. unfold create_data_file.
  rewrite (matched_notes_filter _ Hlab). simpl.
  set (ms := filter is_match (lp_alignment f)).
  assert (Hms : Forall (λ d, ∃ pn sn tok,
              names_perf_note (lp_pna f) d pn ∧
              names_score_note (lp_sna f) d sn ∧
              tokenize_pitch_spelling [spelling_fields sn] = Some tok) ms).
  { apply Forall_forall. intros d Hd. apply list_elem_of_filter in Hd as [Hm Hd].
    rewrite Forall_forall in Hres. by apply Hres. }
  destruct (mapM (entry_features (lp_pna f)) ms) as [rows|] eqn:Hrows.
  2:{ apply eq_None_not_Some in Hrows. destruct Hrows. apply mapM_is_Some.
      eapply Forall_impl; [exact Hms|]. intros d (pn & _ & _ & Hpn & _).
      simpl. rewrite (entry_features_names _ _ _ Hpn). by eexists. }
  destruct (mapM (entry_token (lp_sna f)) ms) as [toks|] eqn:Htoks.
  2:{ apply eq_None_not_Some in Htoks. destruct Htoks. apply mapM_is_Some.
      eapply Forall_impl; [exact Hms|]. intros d (_ & sn & tok & _ & Hsn & Htok).
      simpl. rewrite (entry_token_names _ _ _ Hsn), Htok. by eexists. }
  apply mapM_Some in Hrows, Htoks.
  pose proof (create_data_rows_fill _ _ _ _ _ Hrows Htoks [] [] (replicate 14 0%Q) 0%nat eq_refl)
    as Hloop.
  simpl in Hloop. rewrite Hloop. simpl.
  exists rows, toks. split; [done|]. unfold matched_rows. fold ms.
  split; [by rewrite (Forall2_length _ _ _ Hrows)|].
  split; [by rewrite (Forall2_length _ _ _ Htoks)|].
  split.
  - apply Forall_forall. intros row Hrow.
    apply list_elem_of_lookup_1 in Hrow as [i Hi].
    destruct (Forall2_lookup_r _ _ _ _ _ Hrows Hi) as (d & Hd & Hf).
    rewrite Forall_forall in Hms.
    destruct (Hms d) as (pn & _ & _ & Hpn & _); [by eapply list_elem_of_lookup_2|].
    rewrite (entry_features_names _ _ _ Hpn) in Hf. injection Hf as <-.
    apply note_features_length.
  - intros i d Hd. rewrite Forall_forall in Hms.
    destruct (Hms d) as (pn & sn & tok & Hpn & Hsn & Htok);
      [by eapply list_elem_of_lookup_2|].
    destruct (Forall2_lookup_l _ _ _ _ _ Hrows Hd) as (row & Hrow & Hf).
    destruct (Forall2_lookup_l _ _ _ _ _ Htoks Hd) as (tok' & Htok' & Ht).
    rewrite (entry_features_names _ _ _ Hpn) in Hf. injection Hf as <-.
    rewrite (entry_token_names _ _ _ Hsn), Htok in Ht. injection Ht as <-.
    exists pn, sn, (note_features pn), tok.
    by rewrite extract_features_singleton.
Qed.

Lemma create_data_loop files :
  Forall resolvable files →
  ∀ k (acc : list (list (list Q)) * list (list nat)),
  ∃ data labels,
    for_enumerate (λ acc _ f, create_data_file acc f) k files acc
    = Some (acc.1 ++ data, acc.2 ++ labels)
    ∧ Forall3 matched_rows files data labels.
Proof.
  induction 1 as [|f files Hf _ IH]; intros k acc.
  - exists [], []. simpl. rewrite !app_nil_r. split; [by destruct acc | constructor].
  - destruct (create_data_file_resolvable f acc Hf) as (X & y & Hfile & Hrows).
    cbn [for_enumerate]. rewrite Hfile. simpl.
    destruct (IH (S k) (acc.1 ++ [X], acc.2 ++ [y])) as (data & labels & -> & Hall).
    exists (X :: data), (y :: labels). simpl. rewrite <- !app_assoc. simpl.
    split; [done | by constructor].
Qed.

(** C6. For loaded pairs whose match entries each name one performance
    note and one score note with a spelling of the table, [create_data]
    returns, per pair, [X] with one 14-entry row and [y] with one label
    per entry labelled "match" (insertions and deletions give no row):
    row [i] is the feature vector of the performance note named by the
    [i]-th match entry and label [i] the token of the score note it
    names. *)
Theorem create_data_matched (files : list loaded_pair) :
  Forall resolvable files →
  ∃ data labels,
    create_data files = Some (data, labels) ∧
    Forall3 matched_rows files data labels.
Proof.
  intros Hfiles. unfold create_data.
  destruct (create_data_loop files Hfiles 0%nat ([], [])) as (data & labels & H & Hall).
  exists data, labels. by split.
Qed.

Lemma create_data_matched_witness :
  ∃ data labels,
    create_data [example_pair] = Some (data, labels) ∧
    Forall3 matched_rows [example_pair] data labels.
Proof.
  apply (create_data_matched [example_pair]).
  constructor; [|constructor]. split.
  - repeat constructor; by eexists.
  - repeat constructor; intros Hm; try discriminate Hm.
    + exists (PerfNote "p0" 60 (1#2)), (ScoreNote "s1" "B" 1 3), 1%nat.
      split; [by eexists|]. split; [by eexists|]. reflexivity.
    + exists (PerfNote "p1" 61 2), (ScoreNote "s0" "C" 1 4), 3%nat.
      split; [by eexists|]. split; [by eexists|]. reflexivity.
Defined.

(** ** Evaluation against the score *)

Lemma np_where_from_nil {A} (cond : A → bool) k (a : list A) :
  np_select cond a = [] → np_where_from cond k a = [].
Proof.
  revert k. induction a as [|x a IH]; intros k; [done|].
  unfold np_select. simpl. destruct (cond x) eqn:Hc.
  - by rewrite filter_cons_True.
  - rewrite filter_cons_False by congruence. apply IH.
Qed.

Lemma np_where_from_singleton {A} (cond : A → bool) k (a : list A) x :
  np_select cond a = [x] →
  ∃ j, np_where_from cond k a = [(k + j)%nat] ∧ a !! j = Some x.
Proof.
  revert k. induction a as [|x' a IH]; intros k; [done|].
  unfold np_select. simpl. destruct (cond x') eqn:Hc.
  - rewrite filter_cons_True by done. intros [= -> Hnil].
    exists 0%nat. rewrite (np_where_from_nil _ _ _ Hnil).
    by rewrite Nat.add_0_r.
  - rewrite filter_cons_False by congruence. intros H.
    destruct (IH (S k) H) as (j & -> & Hj). exists (S j).
    split; [f_equal; lia | done].
Qed.

Lemma score_index_names sna d sn :
  names_score_note sna d sn →
  ∃ j, score_index sna d = Some j ∧ sna !! j = Some sn.
Proof.
  intros (sid & Hsid & Hsel). unfold score_index, np_where.
  rewrite Hsid. simpl.
  destruct (np_where_from_singleton _ 0 _ _ Hsel) as (j & -> & Hj).
  by exists j.
Qed.

Lemma eval_matched_inner_first sna i pn ms st :
  Forall (λ d, is_Some (d !! "performance_id")) ms →
  eval_matched_inner sna i pn ms st
  = match head (filter (references pn) ms) with
    | None => Some st
    | Some d => j ← score_index sna d; Some (st.1 ++ [j], <[i := 1%Q]> st.2)
    end.
Proof.
  induction 1 as [|d ms [pid Hpid] _ IH]; [done|].
  cbn [eval_matched_inner]. rewrite Hpid. simpl.
  case_bool_decide as Hb.
  - rewrite filter_cons_True; [|unfold references; by subst]. simpl.
    unfold score_index. by destruct (d !! "score_id").
  - rewrite filter_cons_False; [done|]. unfold references. congruence.
Qed.

Lemma head_filter_elem {A} (P : A → Prop) `{!∀ x, Decision (P x)} (l : list A) x :
  head (filter P l) = Some x → x ∈ l ∧ P x.
Proof.
  intros Hh. apply head_Some_elem_of, list_elem_of_filter in Hh. tauto.
Qed.

Lemma head_filter_None {A} (P : A → Prop) `{!∀ x, Decision (P x)} (l : list A) :
  head (filter P l) = None → ¬ Exists P l.
Proof.
  intros Hh Hex. apply head_None in Hh.
  apply Exists_exists in Hex as (x & Hx & HP).
  assert (Hin : x ∈ filter P l) by by apply list_elem_of_filter.
  rewrite Hh in Hin. by apply not_elem_of_nil in Hin.
Qed.

(** The loop of [eval_matched] over the performance notes. *)
Lemma eval_matched_loop sna ms :
  Forall (λ d, is_Some (d !! "performance_id")
               ∧ ∃ sn, names_score_note sna d sn) ms →
  ∀ pna (pre : list Q) (idxs : list nat),
  ∃ new,
    for_enumerate (λ st i pn, eval_matched_inner sna i pn ms st)
      (length pre) pna (idxs, pre ++ replicate (length pna) 0%Q)
    = Some (idxs ++ new, pre ++ (mask_of ms <$> pna)) ∧
    Forall2 (λ j pn, ∃ d sn, head (filter (references pn) ms) = Some d
                             ∧ names_score_note sna d sn ∧ sna !! j = Some sn)
      new (filter (λ pn, Exists (references pn) ms) pna).
Proof.
  intros Hms. assert (Hpid : Forall (λ d, is_Some (d !! "performance_id")) ms).
  { eapply Forall_impl; [exact Hms|]. by intros d [? _]. }
  induction pna as [|pn pna IH]; intros pre idxs.
  - exists []. simpl. rewrite !app_nil_r. split; [done | constructor].
  - cbn [for_enumerate]. rewrite eval_matched_inner_first by done.
    destruct (head (filter (references pn) ms)) as [d|] eqn:Hhead.
    + pose proof (head_filter_elem _ _ _ Hhead) as [Hd Href].
      rewrite Forall_forall in Hms. destruct (Hms d Hd) as [_ [sn Hsn]].
      destruct (score_index_names _ _ _ Hsn) as (j & Hj & Hlook).
      rewrite Hj. simpl.
      rewrite insert_app_r_alt by done. rewrite Nat.sub_diag. simpl.
      destruct (IH (pre ++ [1%Q]) (idxs ++ [j])) as (new & Hloop & Hall).
      rewrite length_app, Nat.add_1_r, <- !app_assoc in Hloop. simpl in Hloop.
      assert (Hex : Exists (references pn) ms).
      { apply Exists_exists. by exists d. }
      exists (j :: new). split.
      * rewrite Hloop. unfold mask_of at 2. by rewrite decide_True.
      * rewrite filter_cons_True by done. constructor; [|done].
        by exists d, sn.
    + pose proof (head_filter_None _ _ Hhead) as Hnex. simpl.
      destruct (IH (pre ++ [0%Q]) idxs) as (new & Hloop & Hall).
      rewrite length_app, Nat.add_1_r, <- !app_assoc in Hloop. simpl in Hloop.
      exists new. split.
      * rewrite Hloop. unfold mask_of at 2. by rewrite decide_False.
      * by rewrite filter_cons_False.
Qed.

Lemma mask_select_mask_of ms pna :
  mask_select (mask_of ms <$> pna) pna
  = filter (λ pn, Exists (references pn) ms) pna.
Proof.
  induction pna as [|pn pna IH]; [done|]. csimpl. unfold mask_of at 1.
  case_decide.
  - rewrite filter_cons_True by done. simpl. by rewrite IH.
  - rewrite filter_cons_False by done. simpl. by rewrite IH.
Qed.

Lemma mask_select_zip {A B} (mask : list Q) (a : list A) (b : list B) :
  length a = length b →
  mask_select mask (zip a b) = zip (mask_select mask a) (mask_select mask b).
Proof.
  revert a b. induction mask as [|m mask IH]; intros [|x a] [|y b] Hlen;
    simpl in *; try done.
  destruct (astype_bool m); simpl; rewrite IH; auto.
Qed.

Lemma mask_select_length {A B} (mask : list Q) (a : list A) (b : list B) :
  length a = length b →
  length (mask_select mask a) = length (mask_select mask b).
Proof.
  revert a b. induction mask as [|m mask IH]; intros [|x a] [|y b] Hlen;
    simpl in *; try done.
  destruct (astype_bool m); simpl; erewrite IH; eauto.
Qed.

Lemma has_match_filter alignment pn :
  has_match alignment pn ↔ Exists (references pn) (filter is_match alignment).
Proof.
  unfold has_match. rewrite !Exists_exists. split.
  - intros (d & Hd & Hr & Hm). exists d. split; [|done].
    by apply list_elem_of_filter.
  - intros (d & Hd & Hr). apply list_elem_of_filter in Hd as [Hm Hd]. by exists d.
Qed.

(** C7. When the match entries name one score note each and at least one
    performance note is matched, [eval_matched] returns a mask over the
    performance notes that is 1 exactly at the notes named by a match
    entry, and [true_spelling] lists the spelling of the score note of
    each such note (by its first match entry) in the order of the
    performance notes; any per-note output restricted by the mask is
    aligned, index for index, with [true_spelling]. *)
Theorem eval_matched_mask sna alignment pna :
  Forall (λ d, is_Some (d !! "label")) alignment →
  Forall (λ d, is_match d →
               is_Some (d !! "performance_id")
               ∧ ∃ sn, names_score_note sna d sn) alignment →
  Exists (has_match alignment) pna →
  ∃ true_spelling matched,
    eval_matched sna alignment pna = Some (true_spelling, matched) ∧
    length matched = length pna ∧
    (∀ i pn, pna !! i = Some pn →
       matched !! i
       = Some (if decide (has_match alignment pn) then 1%Q else 0%Q)) ∧
    mask_select matched pna = filter (has_match alignment) pna ∧
    Forall2 (λ sp pn, ∃ d sn, first_match alignment pn = Some d
                              ∧ names_score_note sna d sn
                              ∧ sp = spelling_fields sn)
      true_spelling (mask_select matched pna) ∧
    ∀ (A : Type) (out : list A), length out = length pna →
      length (mask_select matched out) = length true_spelling ∧
      mask_select matched (zip pna out)
      = zip (mask_select matched pna) (mask_select matched out).
Proof.
  intros Hlab Hres Hex. unfold eval_matched.
  rewrite (matched_notes_filter _ Hlab). simpl.
  set (ms := filter is_match alignment).
  assert (Hms : Forall (λ d, is_Some (d !! "performance_id")
                             ∧ ∃ sn, names_score_note sna d sn) ms).
  { apply Forall_forall. intros d Hd. apply list_elem_of_filter in Hd as [Hm Hd].
    rewrite Forall_forall in Hres. by apply Hres. }
  destruct (eval_matched_loop sna ms Hms pna [] []) as (new & Hloop & Hnew).
  simpl in Hloop. rewrite Hloop. simpl.
  assert (Hfilt : filter (has_match alignment) pna
                  = filter (λ pn, Exists (references pn) ms) pna).
  { apply list_filter_iff. intros pn. apply has_match_filter. }
  assert (Hne : new ≠ []).
  { intros ->. apply Forall2_nil_inv_l in Hnew.
    apply Exists_exists in Hex as (pn & Hpn & Hm).
    assert (Hin : pn ∈ filter (λ pn, Exists (references pn) ms) pna).
    { apply list_elem_of_filter. split; [by apply has_match_filter | done]. }
    rewrite Hnew in Hin. by apply not_elem_of_nil in Hin. }
  assert (Hrows : ∃ rows, mapM (λ j, sna !! j) new = Some rows).
  { apply mapM_is_Some, Forall_lookup. intros i j Hj.
    destruct (Forall2_lookup_l _ _ _ _ _ Hnew Hj) as (pn & _ & d & sn & _ & _ & Hl).
    simpl. by rewrite Hl. }
  destruct Hrows as [rows Hrows].
  unfold np_take. destruct new as [|j0 new']; [done|].
  rewrite Hrows. simpl.
  exists (spelling_fields <$> rows), (mask_of ms <$> pna).
  split; [done|]. split; [by rewrite length_fmap|].
  assert (Hsel : mask_select (mask_of ms <$> pna) pna
                 = filter (has_match alignment) pna).
  { by rewrite mask_select_mask_of, Hfilt. }
  apply mapM_Some in Hrows.
  assert (Hsp : Forall2 (λ sp pn, ∃ d sn, first_match alignment pn = Some d
                              ∧ names_score_note sna d sn
                              ∧ sp = spelling_fields sn)
      (spelling_fields <$> rows) (mask_select (mask_of ms <$> pna) pna)).
  { rewrite mask_select_mask_of. apply Forall2_fmap_l.
    apply Forall2_same_length_lookup_2.
    - rewrite <- (Forall2_length _ _ _ Hrows). by eapply Forall2_length.
    - intros i row pn Hrow Hpn.
      destruct (Forall2_lookup_r _ _ _ _ _ Hrows Hrow) as (j & Hj & Hjr).
      destruct (Forall2_lookup_l _ _ _ _ _ Hnew Hj) as (pn' & Hpn' & d & sn & Hd & Hsn & Hlook).
      rewrite Hpn in Hpn'. injection Hpn' as <-.
      rewrite Hjr in Hlook. injection Hlook as ->.
      exists d, sn. split; [|done].
      unfold first_match. by rewrite <- list_filter_filter. }
  split; [|split; [done|split; [done|]]].
  - intros i pn Hi. rewrite list_lookup_fmap, Hi. simpl. f_equal.
    unfold mask_of. apply decide_ext. symmetry. apply has_match_filter.
  - intros A out Hout. split.
    + rewrite (mask_select_length _ out pna Hout).
      symmetry. by eapply Forall2_length.
    + by apply mask_select_zip.
Qed.

Lemma eval_matched_mask_witness :
  ∃ true_spelling matched,
    eval_matched (lp_sna example_pair) (lp_alignment example_pair)
      (lp_pna example_pair) = Some (true_spelling, matched) ∧
    length matched = 3%nat ∧
    mask_select matched (lp_pna example_pair)
    = filter (has_match (lp_alignment example_pair)) (lp_pna example_pair).
Proof.
  destruct (eval_matched_mask (lp_sna example_pair) (lp_alignment example_pair)
              (lp_pna example_pair)) as (ts & m & He & Hl & _ & Hsel & _).
  - repeat constructor; by eexists.
  - do 4 (apply Forall_cons_2;
            [intros Hm;
             first [discriminate Hm | split; [by eexists | eexists; by eexists]]|]).
    apply Forall_nil_2.
  - apply Exists_cons_hd. apply Exists_cons_hd. by split.
  - exists ts, m. by repeat split.
Defined.

(** * Further properties of the notebook's code *)

(** ** Tokens and spellings *)

Lemma one_char_string st :
  String.length st = 1%nat → ∃ c, st = String c EmptyString.
Proof. destruct st as [|c [|c' st]]; try done. by exists c. Qed.

Lemma accepted_pitches_letters c a :
  String c a ∈ accepted_pitches → String c EmptyString ∈ step_letters.
Proof.
  intros H. unfold accepted_pitches in H. simpl in H.
  repeat (apply elem_of_cons in H as [H|H];
          [injection H as -> ->; apply list_elem_of_In; simpl; tauto|]).
  by apply elem_of_nil in H.
Qed.

Lemma alter_to_str_range al :
  is_Some (alter_to_str !! al) ↔ -2 ≤ al ≤ 2.
Proof.
  split.
  - intros [a H]. apply alter_to_str_cases in H.
    repeat (apply elem_of_cons in H as [[= -> ->]|H]; [lia|]).
    by apply elem_of_nil in H.
  - intros H.
    assert (al = -2 ∨ al = -1 ∨ al = 0 ∨ al = 1 ∨ al = 2) as Hc by lia.
    destruct Hc as [->|[->|[->|[->| ->]]]]; by eexists.
Qed.

(** X1. [tokenize_pitch_spelling] is defined exactly on the 35 spellings
    of the table: for a one-letter step it returns a token if and only if
    the step is one of A..G and the alter lies in -2..2; an alter outside
    -2..2 is a [KeyError] whatever the step. *)
Theorem tokenize_defined st al o :
  String.length st = 1%nat →
  (is_Some (tokenize_pitch_spelling [Spelling st al o])
   ↔ st ∈ step_letters ∧ -2 ≤ al ≤ 2) ∧
  (∀ st', ¬ (-2 ≤ al ≤ 2) → tokenize_pitch_spelling [Spelling st' al o] = None).
Proof.
  intros Hlen. split; [split|].
  - intros [tok H]. rewrite tokenize_singleton in H.
    destruct (alter_to_str !! al) as [a|] eqn:Ha; [simpl in H|done].
    split; [|apply alter_to_str_range; by eexists].
    apply pitch_to_ix_lookup, list_elem_of_lookup_2 in H.
    destruct (one_char_string st Hlen) as [c ->].
    by eapply accepted_pitches_letters.
  - intros [Hst Hal]. rewrite tokenize_singleton.
    assert (al = -2 ∨ al = -1 ∨ al = 0 ∨ al = 1 ∨ al = 2) as Hc by lia.
    unfold step_letters in Hst.
    repeat (apply elem_of_cons in Hst as [->|Hst];
            [destruct Hc as [->|[->|[->|[->| ->]]]]; vm_compute; by eexists|]).
    by apply elem_of_nil in Hst.
  - intros st' Hal. rewrite tokenize_singleton.
    destruct (alter_to_str !! al) as [a|] eqn:Ha; [|done].
    destruct Hal. apply alter_to_str_range. by eexists.
Qed.

Lemma tokenize_defined_witness :
  is_Some (tokenize_pitch_spelling [Spelling "F" (-1) 4])
  ↔ "F" ∈ step_letters ∧ -2 ≤ -1 ≤ 2.
Proof. apply (tokenize_defined "F" (-1) 4). reflexivity. Defined.

(** X2. Tokenisation is injective: two spellings with one-letter steps
    that get the same token have the same step and the same alter. *)
Theorem tokenize_injective st1 al1 o1 st2 al2 o2 tok :
  String.length st1 = 1%nat → String.length st2 = 1%nat →
  tokenize_pitch_spelling [Spelling st1 al1 o1] = Some tok →
  tokenize_pitch_spelling [Spelling st2 al2 o2] = Some tok →
  st1 = st2 ∧ al1 = al2.
Proof.
  intros Hl1 Hl2 H1 H2. rewrite tokenize_singleton in H1, H2.
  destruct (alter_to_str !! al1) as [a1|] eqn:Ha1; [simpl in H1|done].
  destruct (alter_to_str !! al2) as [a2|] eqn:Ha2; [simpl in H2|done].
  apply pitch_to_ix_lookup in H1, H2. rewrite H1 in H2.
  destruct (one_char_string st1 Hl1) as [c1 ->].
  destruct (one_char_string st2 Hl2) as [c2 ->].
  injection H2 as -> Ha.
  change (a1 = a2) in Ha. subst a2. split; [done|].
  apply str_to_alter_inverse in Ha1, Ha2. congruence.
Qed.

Lemma tokenize_injective_witness : "B" = "B" ∧ 1 = 1.
Proof.
  apply (tokenize_injective "B" 1 3 "B" 1 4 1%nat); reflexivity.
Defined.

(** X3. Decoding a class index the way [predict] does and tokenising the
    result gives the index back: every index below 35 decodes to a
    one-letter step A..G and an alter in -2..2 whose token is that
    index. *)
Theorem decode_tokenize_roundtrip pna i n pp :
  pna !! i = Some n → (pp < 35)%nat →
  ∃ sp, decode_spelling pna i pp = Some sp ∧
        sp_step sp ∈ step_letters ∧ -2 ≤ sp_alter sp ≤ 2 ∧
        tokenize_pitch_spelling [sp] = Some pp.
Proof.
  intros Hn Hpp. unfold decode_spelling.
  do 35 (destruct pp as [|pp];
         [simpl; rewrite Hn; simpl; eexists; split; [reflexivity|];
          split; [apply list_elem_of_In; simpl; tauto|];
          split; [simpl; lia | by vm_compute] |]).
  lia.
Qed.

Lemma decode_tokenize_roundtrip_witness :
  ∃ sp, decode_spelling [PerfNote "n0" 60 1] 0 34 = Some sp ∧
        sp_step sp ∈ step_letters ∧ -2 ≤ sp_alter sp ≤ 2 ∧
        tokenize_pitch_spelling [sp] = Some 34%nat.
Proof.
  apply (decode_tokenize_roundtrip [PerfNote "n0" 60 1] 0 (PerfNote "n0" 60 1) 34).
  - reflexivity.
  - lia.
Defined.

(** ** Errors and composition of [create_data] *)

(** X4. [extract_features] accepts a selection of exactly one note: on an
    empty selection (no note with the id) or on several notes (a repeated
    id) [.item()] raises; on one note it returns 14 entries. *)
Theorem extract_features_defined (perf_note : list perf_note) :
  (is_Some (extract_features perf_note) ↔ length perf_note = 1%nat) ∧
  (∀ features, extract_features perf_note = Some features →
               length features = 14%nat).
Proof.
  destruct perf_note as [|n [|n' l]].
  - split; [split; [by intros [? ?] | done] | done].
  - split; [split; [done | by eexists]|].
    intros features. rewrite extract_features_singleton. intros [= <-].
    apply note_features_length.
  - split; [split; [by intros [? ?] | done] | done].
Qed.

Lemma extract_features_defined_witness :
  length (note_features (PerfNote "n0" 60 1)) = 14%nat.
Proof.
  apply (proj2 (extract_features_defined [PerfNote "n0" 60 1])). reflexivity.
Defined.

Lemma extract_features_Some_inv l features :
  extract_features l = Some features → ∃ n, l = [n] ∧ features = note_features n.
Proof.
  destruct l as [|n [|n' l]]; try done.
  rewrite extract_features_singleton. intros [= <-]. by exists n.
Qed.

Lemma tokenize_Some_inv ps tok :
  tokenize_pitch_spelling ps = Some tok → ∃ sp, ps = [sp].
Proof.
  destruct ps as [|sp [|sp' ps]]; try done. by exists sp.
Qed.

Lemma entry_features_Some_inv pna d row :
  entry_features pna d = Some row →
  ∃ pn, names_perf_note pna d pn ∧ row = note_features pn.
Proof.
  unfold entry_features. intros H.
  destruct (d !! "performance_id") as [pid|] eqn:Hpid; [simpl in H|done].
  apply extract_features_Some_inv in H as (pn & Hsel & ->).
  exists pn. split; [|done]. by exists pid.
Qed.

Lemma entry_token_Some_inv sna d tok :
  entry_token sna d = Some tok →
  ∃ sn, names_score_note sna d sn
        ∧ tokenize_pitch_spelling [spelling_fields sn] = Some tok.
Proof.
  unfold entry_token. intros H.
  destruct (d !! "score_id") as [sid|] eqn:Hsid; [simpl in H|done].
  destruct (tokenize_Some_inv _ _ H) as [sp Hsp].
  destruct (np_select _ sna) as [|sn [|sn' l]] eqn:Hsel; try done.
  exists sn. split; [by exists sid|]. exact H.
Qed.

Lemma matched_notes_Some_inv alignment ms :
  matched_notes alignment = Some ms →
  Forall (λ d, is_Some (d !! "label")) alignment.
Proof.
  revert ms. induction alignment as [|d alignment IH]; intros ms; [constructor|].
  cbn [matched_notes]. intros H.
  destruct (d !! "label") as [label|] eqn:Hl; [simpl in H|done].
  destruct (matched_notes alignment) as [rest|]; [|done].
  constructor; [by eexists | by eapply IH].
Qed.

Lemma create_data_rows_Some_inv pna sna ms :
  ∀ idx Xy r,
    for_enumerate (create_data_row pna sna) idx ms Xy = Some r →
    Forall (λ d, is_Some (entry_features pna d) ∧ is_Some (entry_token sna d)) ms.
Proof.
  induction ms as [|d ms IH]; intros idx Xy r; [constructor|].
  cbn [for_enumerate]. rewrite create_data_row_unfold. intros H.
  destruct (entry_features pna d) as [row|] eqn:Hrow; [simpl in H|done].
  destruct (entry_token sna d) as [tok|] eqn:Htok; [simpl in H|done].
  constructor; [rewrite Hrow, Htok; split; by eexists | eapply IH; exact H].
Qed.

Lemma create_data_file_closed acc f :
  create_data_file acc f
  = Xy ← file_data f; Some (acc.1 ++ [Xy.1], acc.2 ++ [Xy.2]).
Proof.
  unfold create_data_file, file_data.
  destruct (matched_notes (lp_alignment f)) as [ms|]; [simpl|done].
  destruct (for_enumerate _ 0%nat ms _) as [r|] eqn:Hloop.
  - pose proof (create_data_rows_Some_inv _ _ _ _ _ _ Hloop) as Hall.
    destruct (mapM (entry_features (lp_pna f)) ms) as [rows|] eqn:Hrows.
    2:{ apply eq_None_not_Some in Hrows. destruct Hrows. apply mapM_is_Some.
        eapply Forall_impl; [exact Hall|]. by intros d [? _]. }
    destruct (mapM (entry_token (lp_sna f)) ms) as [toks|] eqn:Htoks.
    2:{ apply eq_None_not_Some in Htoks. destruct Htoks. apply mapM_is_Some.
        eapply Forall_impl; [exact Hall|]. by intros d [_ ?]. }
    apply mapM_Some in Hrows, Htoks.
    pose proof (create_data_rows_fill _ _ _ _ _ Hrows Htoks [] []
                  (replicate 14 0%Q) 0%nat eq_refl) as Hfill.
    simpl in Hfill. rewrite Hfill in Hloop. injection Hloop as <-. done.
  - destruct (mapM (entry_features (lp_pna f)) ms) as [rows|] eqn:Hrows; [|done].
    destruct (mapM (entry_token (lp_sna f)) ms) as [toks|] eqn:Htoks; [|done].
    apply mapM_Some in Hrows, Htoks.
    pose proof (create_data_rows_fill _ _ _ _ _ Hrows Htoks [] []
                  (replicate 14 0%Q) 0%nat eq_refl) as Hfill.
    simpl in Hfill. by rewrite Hfill in Hloop.
Qed.

Lemma create_data_loop_closed files :
  ∀ k (acc : list (list (list Q)) * list (list nat)),
    for_enumerate (λ acc _ f, create_data_file acc f) k files acc
    = r ← mapM file_data files; Some (acc.1 ++ r.*1, acc.2 ++ r.*2).
Proof.
  induction files as [|f files IH]; intros k acc.
  - simpl. rewrite !app_nil_r. by destruct acc.
  - cbn [for_enumerate]. rewrite create_data_file_closed.
    change (mapM file_data (f :: files))
      with (y ← file_data f; r ← mapM file_data files; mret (y :: r)).
    destruct (file_data f) as [Xy|]; [simpl|done].
    rewrite IH. destruct (mapM file_data files) as [r|]; [simpl|done].
    by rewrite <- !app_assoc.
Qed.

Lemma create_data_closed files :
  create_data files = r ← mapM file_data files; Some (r.*1, r.*2).
Proof. unfold create_data. by rewrite create_data_loop_closed. Qed.

Lemma file_data_resolvable f :
  is_Some (file_data f) ↔ resolvable f.
Proof.
  split.
  - intros [[rows toks] H]. unfold file_data in H.
    destruct (matched_notes (lp_alignment f)) as [ms|] eqn:Hms; [simpl in H|done].
    pose proof (matched_notes_Some_inv _ _ Hms) as Hlab.
    rewrite (matched_notes_filter _ Hlab) in Hms. injection Hms as <-.
    destruct (mapM (entry_features _) _) as [rows'|] eqn:Hrows; [simpl in H|done].
    destruct (mapM (entry_token _) _) as [toks'|] eqn:Htoks; [simpl in H|done].
    apply mapM_Some in Hrows, Htoks.
    split; [done|]. apply Forall_forall. intros d Hd Hm.
    assert (Hin : d ∈ filter is_match (lp_alignment f))
      by by apply list_elem_of_filter.
    apply list_elem_of_lookup_1 in Hin as [i Hi].
    destruct (Forall2_lookup_l _ _ _ _ _ Hrows Hi) as (row & _ & Hrow).
    destruct (Forall2_lookup_l _ _ _ _ _ Htoks Hi) as (tok & _ & Htok).
    apply entry_features_Some_inv in Hrow as (pn & Hpn & _).
    apply entry_token_Some_inv in Htok as (sn & Hsn & Htok).
    by exists pn, sn, tok.
  - intros Hres.
    destruct (create_data_file_resolvable f ([], []) Hres) as (X & y & H & _).
    rewrite create_data_file_closed in H.
    destruct (file_data f); [by eexists | done].
Qed.

(** X5. [create_data] returns if and only if every loaded pair is
    resolvable: each alignment entry has a label and each match entry
    names exactly one performance note and exactly one score note whose
    spelling is in the table. On any other input it raises. *)
Theorem create_data_defined (files : list loaded_pair) :
  is_Some (create_data files) ↔ Forall resolvable files.
Proof.
  rewrite create_data_closed. split.
  - intros [r H].
    destruct (mapM file_data files) as [r'|] eqn:Hm; [|done].
    assert (Hs : is_Some (mapM file_data files)) by by eexists.
    apply mapM_is_Some in Hs. eapply Forall_impl; [exact Hs|].
    intros f Hf. by apply file_data_resolvable.
  - intros Hres.
    assert (Hs : is_Some (mapM file_data files)).
    { apply mapM_is_Some. eapply Forall_impl; [exact Hres|].
      intros f Hf. by apply file_data_resolvable. }
    destruct Hs as [r ->]. by eexists.
Qed.

Lemma mapM_app_option {A B} (f : A → option B) (l1 l2 : list A) :
  mapM f (l1 ++ l2) = r1 ← mapM f l1; r2 ← mapM f l2; Some (r1 ++ r2).
Proof.
  induction l1 as [|x l1 IH].
  - simpl. by destruct (mapM f l2).
  - change (mapM f ((x :: l1) ++ l2))
      with (y ← f x; r ← mapM f (l1 ++ l2); mret (y :: r)).
    change (mapM f (x :: l1)) with (y ← f x; r ← mapM f l1; mret (y :: r)).
    destruct (f x) as [y|]; [simpl|done]. rewrite IH.
    destruct (mapM f l1) as [r1|]; [simpl|done].
    by destruct (mapM f l2).
Qed.

(** X6. [create_data] treats the pairs independently and in order: on a
    concatenated list it returns the concatenation of what it returns on
    the parts (and raises if it raises on either part); on the empty list
    it returns two empty lists. *)
Theorem create_data_app (files1 files2 : list loaded_pair) :
  create_data [] = Some ([], []) ∧
  create_data (files1 ++ files2)
  = r1 ← create_data files1; r2 ← create_data files2;
    Some (r1.1 ++ r2.1, r1.2 ++ r2.2).
Proof.
  split; [done|]. rewrite !create_data_closed, mapM_app_option.
  destruct (mapM file_data files1) as [r1|]; [simpl|done].
  destruct (mapM file_data files2) as [r2|]; [simpl|done].
  by rewrite !fmap_app.
Qed.

Lemma create_data_lookup files data labels k f :
  create_data files = Some (data, labels) → files !! k = Some f →
  ∃ X y, data !! k = Some X ∧ labels !! k = Some y ∧ file_data f = Some (X, y).
Proof.
  rewrite create_data_closed. intros H Hk.
  destruct (mapM file_data files) as [r|] eqn:Hm; [simpl in H|done].
  injection H as <- <-. apply mapM_Some in Hm.
  destruct (Forall2_lookup_l _ _ _ _ _ Hm Hk) as ([X y] & Hr & Hf).
  exists X, y. by rewrite !list_lookup_fmap, Hr.
Qed.

(** X7. What [create_data] returns for one pair does not depend on the
    other pairs: entry [k] of [data] and of [labels] is what [create_data]
    returns on the [k]-th pair alone, and there is one entry per pair. *)
Theorem create_data_per_file files data labels k f :
  create_data files = Some (data, labels) → files !! k = Some f →
  length data = length files ∧ length labels = length files ∧
  ∃ X y, data !! k = Some X ∧ labels !! k = Some y ∧
         create_data [f] = Some ([X], [y]).
Proof.
  intros H Hk.
  destruct (create_data_lookup _ _ _ _ _ H Hk) as (X & y & HX & Hy & Hf).
  rewrite create_data_closed in H.
  destruct (mapM file_data files) as [r|] eqn:Hm; [simpl in H|done].
  injection H as <- <-. apply mapM_Some, Forall2_length in Hm.
  rewrite !length_fmap. split; [done|]. split; [done|].
  exists X, y. split; [done|]. split; [done|].
  rewrite create_data_closed.
  change (mapM file_data [f]) with (y ← file_data f; mret [y]).
  by rewrite Hf.
Qed.

Lemma create_data_per_file_witness :
  ∃ X y, create_data [example_pair] = Some ([X], [y]).
Proof.
  destruct (create_data_per_file [example_pair; example_pair]
              [note_features <$> [PerfNote "p0" 60 (1#2); PerfNote "p1" 61 2];
               note_features <$> [PerfNote "p0" 60 (1#2); PerfNote "p1" 61 2]]
              [[1; 3]; [1; 3]]%nat 1%nat example_pair)
    as (_ & _ & X & y & _ & _ & H).
  - by vm_compute.
  - reflexivity.
  - by exists X, y.
Defined.

Lemma tokenize_bound ps_note tok :
  tokenize_pitch_spelling ps_note = Some tok → (tok < n_out_pitch)%nat.
Proof.
  unfold tokenize_pitch_spelling. intros H. rewrite n_out_pitch_35.
  destruct (item (sp_alter <$> ps_note)) as [a|]; [simpl in H|done].
  destruct (alter_to_str !! a) as [alter|]; [simpl in H|done].
  destruct (item (sp_step <$> ps_note)) as [s|]; [simpl in H|done].
  by eapply pitch_to_ix_bound.
Qed.

Lemma file_data_shape f X y :
  file_data f = Some (X, y) →
  length y = length X ∧ Forall (λ row, length row = 14%nat) X
  ∧ Forall (λ tok, (tok < n_out_pitch)%nat) y.
Proof.
  unfold file_data. intros H.
  destruct (matched_notes (lp_alignment f)) as [ms|]; [simpl in H|done].
  destruct (mapM (entry_features _) ms) as [rows|] eqn:Hrows; [simpl in H|done].
  destruct (mapM (entry_token _) ms) as [toks|] eqn:Htoks; [simpl in H|done].
  injection H as <- <-. apply mapM_Some in Hrows, Htoks.
  split; [|split].
  - by rewrite <- (Forall2_length _ _ _ Hrows), <- (Forall2_length _ _ _ Htoks).
  - apply Forall_lookup. intros i row Hi.
    destruct (Forall2_lookup_r _ _ _ _ _ Hrows Hi) as (d & _ & Hd).
    apply entry_features_Some_inv in Hd as (pn & _ & ->).
    apply note_features_length.
  - apply Forall_lookup. intros i tok Hi.
    destruct (Forall2_lookup_r _ _ _ _ _ Htoks Hi) as (d & _ & Hd).
    apply entry_token_Some_inv in Hd as (sn & _ & Htok).
    by eapply tokenize_bound.
Qed.

(** X8. Every batch the [DataLoader] (batch size 1) builds from the
    output of [create_data] fits the model: for each index below the
    dataset length, [collate_ps] returns the feature rows of one pair (as
    float), their number as the only length, and as many labels as rows;
    each row has 14 entries ([input_dim]) and each label is a class index
    below [n_out_pitch]. An index past the end is refused. *)
Theorem dataloader_batch_fits to_float32 files data labels idx :
  create_data files = Some (data, labels) →
  PSDataset_len data labels = length files ∧
  ((idx < PSDataset_len data labels)%nat →
   ∃ X y, data !! idx = Some X ∧ labels !! idx = Some y ∧
     dataloader_batch to_float32 data labels idx
     = Some (tensor_float to_float32 X, [length X], y) ∧
     length (tensor_float to_float32 X) = length y ∧
     Forall (λ row, length row = 14%nat) (tensor_float to_float32 X) ∧
     Forall (λ tok, (tok < n_out_pitch)%nat) y) ∧
  ((PSDataset_len data labels ≤ idx)%nat →
   dataloader_batch to_float32 data labels idx = None).
Proof.
  intros H. unfold PSDataset_len.
  assert (Hlen : length data = length files).
  { rewrite create_data_closed in H.
    destruct (mapM file_data files) as [r|] eqn:Hm; [simpl in H|done].
    injection H as <- <-. apply mapM_Some, Forall2_length in Hm.
    by rewrite length_fmap. }
  split; [done|]. split.
  - intros Hidx. rewrite Hlen in Hidx.
    destruct (lookup_lt_is_Some_2 files idx Hidx) as [f Hf].
    destruct (create_data_lookup _ _ _ _ _ H Hf) as (X & y & HX & Hy & Hfd).
    destruct (file_data_shape _ _ _ Hfd) as (Hl & Hrows & Htoks).
    exists X, y. split; [done|]. split; [done|]. split; [|split; [|split]].
    + unfold dataloader_batch, PSDataset_getitem. by rewrite HX, Hy.
    + unfold tensor_float. by rewrite length_fmap.
    + unfold tensor_float. apply Forall_fmap.
      eapply Forall_impl; [exact Hrows|]. intros row Hrow. simpl.
      by rewrite length_fmap.
    + done.
  - intros Hidx. unfold dataloader_batch, PSDataset_getitem.
    by rewrite (lookup_ge_None_2 data idx Hidx).
Qed.

Lemma dataloader_batch_fits_witness :
  ∃ X y,
    dataloader_batch Qred [note_features <$> [PerfNote "p0" 60 (1#2); PerfNote "p1" 61 2]]
      [[1; 3]%nat] 0
    = Some (tensor_float Qred X, [length X], y) ∧
    length (tensor_float Qred X) = length y.
Proof.
  destruct (dataloader_batch_fits Qred [example_pair]
              [note_features <$> [PerfNote "p0" 60 (1#2); PerfNote "p1" 61 2]]
              [[1; 3]%nat] 0%nat) as (_ & Hb & _).
  - by vm_compute.
  - destruct Hb as (X & y & _ & _ & Hbatch & Hl & _); [simpl; lia|].
    by exists X, y.
Defined.

(** ** What [predict] returns *)

Lemma argmax_rows_lookup scores labels :
  argmax_rows scores = Some labels →
  length labels = length scores ∧
  ∀ i pp, labels !! i = Some pp →
    ∃ row, scores !! i = Some row ∧ argmax row = Some pp.
Proof.
  revert labels. induction scores as [|row scores IH]; intros labels.
  - intros [= <-]. split; [done|]. by intros i pp.
  - cbn [argmax_rows]. intros H.
    destruct (argmax row) as [p|] eqn:Hp; [simpl in H|done].
    destruct (argmax_rows scores) as [rest|]; [simpl in H|done].
    injection H as <-. destruct (IH rest eq_refl) as [Hl Hk].
    split; [simpl; lia|]. intros [|i] pp Hi; simpl in Hi.
    + injection Hi as <-. by exists row.
    + by apply Hk.
Qed.

Lemma spelling_array_from_lookup pna predicted :
  ∀ i out, spelling_array_from pna i predicted = Some out →
    length out = length predicted ∧
    ∀ k sp, out !! k = Some sp →
      ∃ pp, predicted !! k = Some pp
            ∧ decode_spelling pna (i + k) pp = Some sp.
Proof.
  induction predicted as [|pp predicted IH]; intros i out.
  - intros [= <-]. split; [done|]. by intros k sp.
  - cbn [spelling_array_from]. intros H.
    destruct (decode_spelling pna i pp) as [sp0|] eqn:Hd; [simpl in H|done].
    destruct (spelling_array_from pna (S i) predicted) as [rest|] eqn:Hr;
      [simpl in H|done].
    injection H as <-. destruct (IH (S i) rest Hr) as [Hl Hk].
    split; [simpl; lia|]. intros [|k] sp Hsp; simpl in Hsp.
    + injection Hsp as <-. exists pp. by rewrite Nat.add_0_r.
    + destruct (Hk k sp Hsp) as (pp' & Hpp' & Hdec). exists pp'.
      split; [done|]. by replace (i + S k)%nat with (S i + k)%nat by lia.
Qed.

Lemma decode_spelling_Some_inv pna i pp sp :
  decode_spelling pna i pp = Some sp →
  ∃ n, pna !! i = Some n ∧
       sp_octave sp = py_int (inject_Z (pn_pitch n) / 12)%Q - 1 ∧
       tokenize_pitch_spelling [sp] = Some pp.
Proof.
  intros H.
  assert (Hpp : (pp < 35)%nat).
  { unfold decode_spelling in H.
    destruct (accepted_pitches !! pp) as [name|] eqn:Hn; [|done].
    apply lookup_lt_Some in Hn. by rewrite accepted_pitches_length in Hn. }
  assert (Hi : is_Some (pna !! i)).
  { unfold decode_spelling in H.
    destruct (accepted_pitches !! pp) as [name|]; [simpl in H|done].
    destruct (str_first name); [simpl in H|done].
    destruct (str_to_alter !! str_rest name); [simpl in H|done].
    destruct (pna !! i); [by eexists | done]. }
  destruct Hi as [n Hn]. exists n. split; [done|].
  unfold decode_spelling in H. rewrite Hn in H.
  do 35 (destruct pp as [|pp];
         [simpl in H; injection H as <-; split; [reflexivity | by vm_compute]|]).
  lia.
Qed.

Lemma argmax_rows_length scores labels :
  argmax_rows scores = Some labels → length labels = length scores.
Proof. intros H. by apply argmax_rows_lookup in H as [? _]. Qed.

(** X9. [predict] raises on every performance of exactly one note: the
    network returns one row of scores, its arg-max is squeezed to a 0-d
    tensor, and the loop over it cannot start. *)
Theorem predict_single_note
    (compute_outputs : list (list Q) → list (list Q)) (n : perf_note) :
  (∀ features, length (compute_outputs features) = length features) →
  predict compute_outputs [n] = None.
Proof.
  intros Hshape. unfold predict.
  destruct (argmax_rows _) as [am|] eqn:Ham; [simpl|done].
  apply argmax_rows_length in Ham. rewrite Hshape in Ham. simpl in Ham.
  unfold iter_squeezed. by rewrite decide_True.
Qed.

Lemma predict_single_note_witness :
  predict (λ features, (λ _, replicate 35 0%Q) <$> features)
    [PerfNote "n0" 60 1] = None.
Proof.
  apply (predict_single_note (λ features, (λ _, replicate 35 0%Q) <$> features)).
  intros features. apply length_fmap.
Defined.

(** X10. Whatever [predict] returns decodes the network's arg-max, note by
    note: the spelling at index [i] is a spelling of the table whose token
    is the arg-max of the [i]-th row of scores, there is one spelling per
    note, and for MIDI pitches 0..127 its octave lies in -1..9 and
    together with the pitch class gives the pitch back. *)
Theorem predict_decodes_argmax
    (compute_outputs : list (list Q) → list (list Q)) pna out :
  predict compute_outputs pna = Some out →
  Forall (λ n, 0 ≤ pn_pitch n ≤ 127) pna →
  length out = length (compute_outputs (predict_features pna)) ∧
  ∀ i sp, out !! i = Some sp →
    ∃ n row pp,
      pna !! i = Some n ∧
      compute_outputs (predict_features pna) !! i = Some row ∧
      argmax row = Some pp ∧
      tokenize_pitch_spelling [sp] = Some pp ∧
      -1 ≤ sp_octave sp ≤ 9 ∧
      12 * (sp_octave sp + 1) + pn_pitch n `mod` 12 = pn_pitch n.
Proof.
  unfold predict. intros H Hrange.
  destruct (argmax_rows _) as [am|] eqn:Ham; [simpl in H|done].
  unfold iter_squeezed in H. case_decide; [done|]. simpl in H.
  destruct (argmax_rows_lookup _ _ Ham) as [Hl Hrow].
  destruct (spelling_array_from_lookup _ _ _ _ H) as [Hlo Hsp].
  split; [congruence|]. intros i sp Hi.
  destruct (Hsp i sp Hi) as (pp & Hpp & Hdec). simpl in Hdec.
  destruct (Hrow i pp Hpp) as (row & Hr & Harg).
  destruct (decode_spelling_Some_inv _ _ _ _ Hdec) as (n & Hn & Hoct & Htok).
  exists n, row, pp. repeat (split; [done|]).
  rewrite Forall_forall in Hrange.
  assert (Hp : 0 ≤ pn_pitch n ≤ 127)
    by (apply Hrange; by eapply list_elem_of_lookup_2).
  rewrite Hoct, py_int_div12_floor by lia.
  pose proof (Z.div_mod (pn_pitch n) 12 ltac:(lia)) as Hdm.
  pose proof (Z.mod_pos_bound (pn_pitch n) 12 ltac:(lia)) as Hmb.
  split; lia.
Qed.

Lemma predict_decodes_argmax_witness :
  ∃ n row pp,
    [PerfNote "n0" 60 (1#2); PerfNote "n1" 72 (1#4)] !! 1%nat = Some n ∧
    ((λ _ : list Q, replicate 35 0%Q)
       <$> predict_features [PerfNote "n0" 60 (1#2); PerfNote "n1" 72 (1#4)])
      !! 1%nat = Some row ∧
    argmax row = Some pp ∧
    tokenize_pitch_spelling [Spelling "C" 0 5] = Some pp ∧
    -1 ≤ sp_octave (Spelling "C" 0 5) ≤ 9 ∧
    12 * (sp_octave (Spelling "C" 0 5) + 1) + pn_pitch n `mod` 12 = pn_pitch n.
Proof.
  refine (proj2 (predict_decodes_argmax
                   (λ features, (λ _, replicate 35 0%Q) <$> features)
                   [PerfNote "n0" 60 (1#2); PerfNote "n1" 72 (1#4)]
                   [Spelling "C" 0 4; Spelling "C" 0 5] _ _)
            1%nat (Spelling "C" 0 5) _).
  - by vm_compute.
  - repeat constructor; simpl; lia.
  - reflexivity.
Defined.

(** ** Batches *)

Lemma collate_ps_Some_inv to_float32 (data : list (list (list Q) * list nat)) s l t :
  collate_ps to_float32 data = Some (s, l, t) →
  ∃ s0 rest, sort_desc data = (s0, t) :: rest ∧ s = tensor_float to_float32 s0
             ∧ l = (length ∘ fst) <$> sort_desc data.
Proof.
  unfold collate_ps. destruct (sort_desc data) as [|[s0 t0] rest] eqn:Hs; [done|].
  simpl. intros [= <- <- <-]. exists s0, rest. split; [done|]. split; [done|].
  by rewrite <- list_fmap_compose.
Qed.

(** X11. [collate_ps] returns on every non-empty batch and raises on the
    empty one (the unpacking of [zip( *data)] finds nothing). *)
Theorem collate_ps_defined to_float32 (data : list (list (list Q) * list nat)) :
  is_Some (collate_ps to_float32 data) ↔ data ≠ [].
Proof.
  split.
  - intros [[[s l] t] H] ->. done.
  - intros Hne. destruct (sort_desc_head data Hne) as (x & i & Hh & _).
    unfold collate_ps. destruct (sort_desc data) as [|[s0 t0] rest]; [done|].
    by eexists.
Qed.

(** X12. The lengths [collate_ps] returns do not depend on the order of
    the batch: two batches that are permutations of each other give the
    same list of lengths, sorted decreasingly, and returned sources with
    the same number of rows, which is the first of the lengths. *)
Theorem collate_ps_lengths_perm to_float32
    (data data' : list (list (list Q) * list nat)) s l t s' l' t' :
  data ≡ₚ data' →
  collate_ps to_float32 data = Some (s, l, t) →
  collate_ps to_float32 data' = Some (s', l', t') →
  l = l' ∧ StronglySorted ge l ∧ head l = Some (length s) ∧ length s = length s'.
Proof.
  intros Hperm H H'.
  apply collate_ps_Some_inv in H as (s0 & rest & Hs & -> & ->).
  apply collate_ps_Some_inv in H' as (s0' & rest' & Hs' & -> & ->).
  assert (Heq : (length ∘ fst) <$> sort_desc data
                = (length ∘ fst) <$> sort_desc data').
  { apply (StronglySorted_unique_strong ge).
    - intros x1 x2 _ _. lia.
    - apply sorted_lengths, sort_desc_sorted.
    - apply sorted_lengths, sort_desc_sorted.
    - by rewrite !sort_desc_perm, Hperm. }
  split; [done|]. split; [apply sorted_lengths, sort_desc_sorted|].
  assert (Hlen : ∀ u, length (tensor_float to_float32 u) = length u).
  { intros u. unfold tensor_float. by rewrite length_fmap. }
  rewrite !Hlen. split.
  - by rewrite Hs.
  - rewrite Hs, Hs' in Heq. simpl in Heq. by injection Heq as ->.
Qed.

Lemma collate_ps_lengths_perm_witness :
  [2; 1]%nat = [2; 1]%nat ∧ StronglySorted ge [2; 1]%nat
  ∧ head [2; 1]%nat = Some (length [[1%Q]; [2%Q]])
  ∧ length [[1%Q]; [2%Q]] = length [[1%Q]; [2%Q]].
Proof.
  apply (collate_ps_lengths_perm Qred
           [([[1%Q]], [3%nat]); ([[1%Q]; [2%Q]], [4%nat; 5%nat])]
           [([[1%Q]; [2%Q]], [4%nat; 5%nat]); ([[1%Q]], [3%nat])]
           [[1%Q]; [2%Q]] [2; 1]%nat [4; 5]%nat
           [[1%Q]; [2%Q]] [2; 1]%nat [4; 5]%nat).
  - apply Permutation_swap.
  - reflexivity.
  - reflexivity.
Defined.

(** ** Errors of [eval_matched] and the accuracy *)

Lemma eval_matched_inner_no_reference sna i pn ms st :
  ¬ Exists (references pn) ms →
  eval_matched_inner sna i pn ms st = None
  ∨ eval_matched_inner sna i pn ms st = Some st.
Proof.
  induction ms as [|d ms IH]; intros Hno; [by right|].
  cbn [eval_matched_inner].
  destruct (d !! "performance_id") as [pid|] eqn:Hpid; [simpl|by left].
  case_bool_decide as Hb.
  - destruct Hno. apply Exists_cons_hd. unfold references. by subst.
  - apply IH. intros Hex. apply Hno. by apply Exists_cons_tl.
Qed.

Lemma eval_matched_loop_no_reference sna ms pna :
  Forall (λ pn, ¬ Exists (references pn) ms) pna →
  ∀ idx st,
    for_enumerate (λ st i pn, eval_matched_inner sna i pn ms st) idx pna st = None
    ∨ for_enumerate (λ st i pn, eval_matched_inner sna i pn ms st) idx pna st
      = Some st.
Proof.
  induction 1 as [|pn pna Hpn _ IH]; intros idx st; [by right|].
  cbn [for_enumerate].
  destruct (eval_matched_inner_no_reference sna idx pn ms st Hpn) as [-> | ->].
  - by left.
  - simpl. apply IH.
Qed.

(** X13. [eval_matched] raises whenever no performance note is named by a
    match entry (in particular on an empty performance and on an alignment
    without matches): the list of score indices stays empty, and numpy
    refuses the empty float array as an index. *)
Theorem eval_matched_no_match sna alignment pna :
  ¬ Exists (has_match alignment) pna →
  eval_matched sna alignment pna = None.
Proof.
  intros Hno. unfold eval_matched.
  destruct (matched_notes alignment) as [ms|] eqn:Hms; [simpl|done].
  pose proof (matched_notes_Some_inv _ _ Hms) as Hlab.
  rewrite (matched_notes_filter _ Hlab) in Hms. injection Hms as <-.
  assert (Hall : Forall (λ pn, ¬ Exists (references pn)
                                  (filter is_match alignment)) pna).
  { apply Forall_forall. intros pn Hpn Hex. apply Hno.
    apply Exists_exists. exists pn. split; [done|]. by apply has_match_filter. }
  destruct (eval_matched_loop_no_reference sna _ pna Hall 0%nat
              ([], replicate (length pna) 0%Q)) as [-> | ->]; done.
Qed.

Lemma eval_matched_no_match_witness :
  eval_matched [ScoreNote "s0" "C" 0 4]
    (produce_match [(VStr "s0", VStr "deletion")]) [PerfNote "p0" 60 1] = None.
Proof.
  apply (eval_matched_no_match [ScoreNote "s0" "C" 0 4]
           (produce_match [(VStr "s0", VStr "deletion")]) [PerfNote "p0" 60 1]).
  intros Hex. apply Exists_exists in Hex as (pn & _ & Hm).
  apply Exists_exists in Hm as (d & Hd & _ & Hmatch).
  apply list_elem_of_singleton in Hd. subst d. discriminate Hmatch.
Defined.

Lemma bool_sum_cons b a :
  bool_sum (b :: a) = ((if b then 1 else 0) + bool_sum a)%Q.
Proof. reflexivity. Qed.

Lemma inject_Z_length_cons {A} (x : A) (l : list A) :
  (inject_Z (Z.of_nat (length (x :: l))) == inject_Z (Z.of_nat (length l)) + 1)%Q.
Proof.
  simpl length. rewrite Nat2Z.inj_succ. unfold Z.succ. by rewrite inject_Z_plus.
Qed.

Lemma bool_sum_bounds a :
  (0 <= bool_sum a)%Q ∧ (bool_sum a <= inject_Z (Z.of_nat (length a)))%Q.
Proof.
  induction a as [|b a [IH0 IH1]].
  - split; done.
  - rewrite bool_sum_cons, inject_Z_length_cons. destruct b; split; lra.
Qed.

Lemma bool_sum_full a :
  (bool_sum a == inject_Z (Z.of_nat (length a)))%Q ↔ Forall (λ b, b = true) a.
Proof.
  induction a as [|b a IH].
  - split; [constructor | done].
  - rewrite bool_sum_cons, inject_Z_length_cons.
    pose proof (bool_sum_bounds a) as [H0 H1]. destruct b; split.
    + intros H. constructor; [done|]. apply IH. lra.
    + intros H. apply Forall_cons in H as [_ H]. apply IH in H. lra.
    + intros H. lra.
    + intros H. by apply Forall_cons in H as [? _].
Qed.

Lemma np_mean_bool_props a :
  a ≠ [] →
  ∃ q, np_mean_bool a = Some q ∧ (0 <= q)%Q ∧ (q <= 1)%Q ∧
       ((q == 1)%Q ↔ Forall (λ b, b = true) a).
Proof.
  intros Hne.
  assert (Hn : (0 < inject_Z (Z.of_nat (length a)))%Q).
  { destruct a as [|b a]; [done|]. rewrite inject_Z_length_cons.
    pose proof (bool_sum_bounds a) as [H0 H1]. lra. }
  exists (bool_sum a / inject_Z (Z.of_nat (length a)))%Q.
  split; [by destruct a|]. pose proof (bool_sum_bounds a) as [H0 H1].
  split; [|split].
  - apply Qle_shift_div_l; [done|]. lra.
  - apply Qle_shift_div_r; [done|]. lra.
  - rewrite <- bool_sum_full. split; intros H.
    + apply (Qmult_inj_r _ _ (inject_Z (Z.of_nat (length a)))) in H; [|lra].
      rewrite Qmult_comm, Qmult_div_r in H by lra. lra.
    + rewrite H. unfold Qdiv. apply Qmult_inv_r. lra.
Qed.

Lemma spelling_eq_fields (a b : spelling) :
  bool_decide (sp_step a = sp_step b)
  && (bool_decide (sp_alter a = sp_alter b)
      && bool_decide (sp_octave a = sp_octave b))
  = bool_decide (a = b).
Proof.
  destruct a as [s1 a1 o1], b as [s2 a2 o2]. simpl.
  repeat case_bool_decide; simpl; congruence.
Qed.

Lemma spelling_accuracy_closed pk ts :
  length pk = length ts →
  spelling_accuracy pk ts
  = np_mean_bool (zip_with (λ a b, bool_decide (a = b)) pk ts).
Proof.
  intros Hlen. unfold spelling_accuracy, np_equal.
  rewrite !decide_True by (by rewrite !length_fmap). simpl. f_equal.
  clear Hlen. revert ts. induction pk as [|a pk IH]; intros [|b ts]; try done.
  csimpl. by rewrite spelling_eq_fields, IH.
Qed.

Lemma zip_with_eq_all {A} `{EqDecision A} (l k : list A) :
  length l = length k →
  Forall (λ b, b = true) (zip_with (λ a b, bool_decide (a = b)) l k) ↔ l = k.
Proof.
  revert k. induction l as [|x l IH]; intros [|y k] Hlen; try done.
  simpl. rewrite Forall_cons, IH by (simpl in Hlen; lia).
  rewrite bool_decide_eq_true. split; [intros [-> ->]; done | by intros [= -> ->]].
Qed.

Lemma spelling_accuracy_Some pk ts :
  length pk = length ts → ts ≠ [] →
  ∃ q, spelling_accuracy pk ts = Some q ∧ (0 <= q)%Q ∧ (q <= 1)%Q ∧
       ((q == 1)%Q ↔ pk = ts).
Proof.
  intros Hlen Hne. rewrite spelling_accuracy_closed by done.
  destruct (np_mean_bool_props (zip_with (λ a b, bool_decide (a = b)) pk ts))
    as (q & Hq & H0 & H1 & Hfull).
  { destruct pk, ts; done. }
  exists q. repeat (split; [done|]). by rewrite Hfull, zip_with_eq_all.
Qed.

(** X14. The accuracy of the last cell, for two spelling arrays of the
    same non-zero length, is a number in [0,1], and it is 1 exactly when
    the arrays agree in step, alter and octave at every index. On empty
    arrays the mean is [nan]. *)
Theorem spelling_accuracy_unit (pk ts : list spelling) :
  (length pk = length ts → ts ≠ [] →
   ∃ q, spelling_accuracy pk ts = Some q ∧ (0 <= q)%Q ∧ (q <= 1)%Q ∧
        ((q == 1)%Q ↔ pk = ts)) ∧
  spelling_accuracy [] [] = None.
Proof.
  split; [|done]. intros Hlen Hne. rewrite spelling_accuracy_closed by done.
  destruct (np_mean_bool_props (zip_with (λ a b, bool_decide (a = b)) pk ts))
    as (q & Hq & H0 & H1 & Hfull).
  { destruct pk, ts; done. }
  exists q. repeat (split; [done|]). by rewrite Hfull, zip_with_eq_all.
Qed.

Lemma spelling_accuracy_unit_witness :
  ∃ q, spelling_accuracy [Spelling "A" 0 4; Spelling "B" 1 4]
         [Spelling "A" 0 4; Spelling "C" 0 5] = Some q
       ∧ (0 <= q)%Q ∧ (q <= 1)%Q
       ∧ ((q == 1)%Q ↔ [Spelling "A" 0 4; Spelling "B" 1 4]
                        = [Spelling "A" 0 4; Spelling "C" 0 5]).
Proof.
  apply (proj1 (spelling_accuracy_unit [Spelling "A" 0 4; Spelling "B" 1 4]
                  [Spelling "A" 0 4; Spelling "C" 0 5])).
  - reflexivity.
  - discriminate.
Defined.

Lemma eval_matched_inner_result sna i pn ms st st' :
  eval_matched_inner sna i pn ms st = Some st' →
  st' = st ∨ ∃ j, st' = (st.1 ++ [j], <[i := 1%Q]> st.2).
Proof.
  induction ms as [|d ms IH]; cbn [eval_matched_inner].
  - intros [= <-]. by left.
  - destruct (d !! "performance_id") as [pid|]; [simpl|done].
    case_bool_decide; [|done].
    destruct (d !! "score_id") as [sid|]; [simpl|done].
    destruct (item _) as [j|]; [simpl|done].
    intros [= <-]. right. by exists j.
Qed.

(** Whatever the entries, the loop adds one score index per mask bit it
    sets. *)
Lemma eval_matched_loop_shape sna ms pna :
  ∀ (pre : list Q) (idxs : list nat) r,
    for_enumerate (λ st i pn, eval_matched_inner sna i pn ms st)
      (length pre) pna (idxs, pre ++ replicate (length pna) 0%Q) = Some r →
    ∃ new bits,
      r = (idxs ++ new, pre ++ bits) ∧ length bits = length pna ∧
      ∀ (A : Type) (out : list A), length out = length pna →
        length (mask_select bits out) = length new.
Proof.
  induction pna as [|pn pna IH]; intros pre idxs r.
  - intros [= <-]. exists [], []. simpl. rewrite !app_nil_r. split; [done|].
    split; [done|]. by intros A [|x out].
  - cbn [for_enumerate].
    destruct (eval_matched_inner _ _ _ _ _) as [st1|] eqn:Hin; [simpl|done].
    intros Hloop. apply eval_matched_inner_result in Hin as [->|[j ->]].
    + change (pre ++ replicate (length (pn :: pna)) 0%Q)
        with (pre ++ [0%Q] ++ replicate (length pna) 0%Q) in Hloop.
      rewrite app_assoc in Hloop.
      replace (S (length pre)) with (length (pre ++ [0%Q])) in Hloop
        by (rewrite length_app; simpl; lia).
      destruct (IH _ _ _ Hloop) as (new & bits & -> & Hl & Hsel).
      exists new, (0%Q :: bits). rewrite <- app_assoc. split; [done|].
      split; [simpl; lia|]. intros A [|x out] Hout; [done|].
      simpl. apply Hsel. simpl in Hout. lia.
    + simpl in Hloop. rewrite insert_app_r_alt in Hloop by done.
      rewrite Nat.sub_diag in Hloop. simpl in Hloop.
      change (pre ++ 1%Q :: replicate (length pna) 0%Q)
        with (pre ++ [1%Q] ++ replicate (length pna) 0%Q) in Hloop.
      rewrite app_assoc in Hloop.
      replace (S (length pre)) with (length (pre ++ [1%Q])) in Hloop
        by (rewrite length_app; simpl; lia).
      destruct (IH _ _ _ Hloop) as (new & bits & -> & Hl & Hsel).
      exists (j :: new), (1%Q :: bits). rewrite <- !app_assoc. split; [done|].
      split; [simpl; lia|]. intros A [|x out] Hout; [done|].
      simpl. f_equal. apply Hsel. simpl in Hout. lia.
Qed.

Lemma eval_matched_Some_shape sna alignment pna ts matched :
  eval_matched sna alignment pna = Some (ts, matched) →
  ts ≠ [] ∧ length matched = length pna ∧
  ∀ (A : Type) (out : list A), length out = length pna →
    length (mask_select matched out) = length ts.
Proof.
  unfold eval_matched. intros H.
  destruct (matched_notes alignment) as [ms|]; [simpl in H|done].
  destruct (for_enumerate _ _ _ _) as [st|] eqn:Hloop; [simpl in H|done].
  destruct (eval_matched_loop_shape sna ms pna [] [] st Hloop)
    as (new & bits & -> & Hl & Hsel).
  simpl in H. unfold np_take in H.
  destruct new as [|j new]; [done|].
  destruct (mapM _ (j :: new)) as [rows|] eqn:Hrows; [simpl in H|done].
  injection H as <- <-. apply mapM_Some, Forall2_length in Hrows.
  split; [|split; [done|]].
  - destruct rows; [done|]. done.
  - intros A out Hout. by rewrite length_fmap, <- Hrows, Hsel.
Qed.

(** X15. Whenever [eval_matched] returns, the comparison of the last
    cells goes through: the mask has one entry per performance note, and
    any per-note spelling array (the model's or the baseline's) restricted
    by the mask has the length of [true_spelling], which is not empty, so
    its accuracy is a number in [0,1], equal to 1 exactly when the
    restricted array is [true_spelling]. *)
Theorem eval_matched_accuracy sna alignment pna ts matched (out : list spelling) :
  eval_matched sna alignment pna = Some (ts, matched) →
  length out = length pna →
  length matched = length pna ∧
  length (mask_select matched out) = length ts ∧
  ∃ q, spelling_accuracy (mask_select matched out) ts = Some q ∧
       (0 <= q)%Q ∧ (q <= 1)%Q ∧
       ((q == 1)%Q ↔ mask_select matched out = ts).
Proof.
  intros H Hout.
  destruct (eval_matched_Some_shape _ _ _ _ _ H) as (Hne & Hl & Hsel).
  split; [done|]. split; [by apply Hsel|].
  apply spelling_accuracy_Some; [by apply Hsel | done].
Qed.

Lemma eval_matched_accuracy_witness :
  ∃ q, spelling_accuracy
         (mask_select [1%Q; 1%Q; 0%Q]
            [Spelling "B" 1 3; Spelling "D" (-1) 4; Spelling "C" 0 5])
         [Spelling "B" 1 3; Spelling "C" 1 4] = Some q
       ∧ (0 <= q)%Q ∧ (q <= 1)%Q.
Proof.
  destruct (eval_matched_accuracy (lp_sna example_pair) (lp_alignment example_pair)
              (lp_pna example_pair) [Spelling "B" 1 3; Spelling "C" 1 4]
              [1%Q; 1%Q; 0%Q]
              [Spelling "B" 1 3; Spelling "D" (-1) 4; Spelling "C" 0 5])
    as (_ & _ & q & Hq & H0 & H1 & _).
  - by vm_compute.
  - reflexivity.
  - by exists q.
Defined.

(** ** Training labels and evaluation ground truth *)

Lemma file_data_matched_rows f X y :
  file_data f = Some (X, y) → resolvable f ∧ matched_rows f X y.
Proof.
  intros H.
  assert (Hres : resolvable f) by (apply file_data_resolvable; by eexists).
  split; [done|].
  destruct (create_data_file_resolvable f ([], []) Hres) as (X' & y' & Hf & Hrows).
  rewrite create_data_file_closed, H in Hf. simpl in Hf.
  by injection Hf as <- <-.
Qed.

Lemma eval_matched_resolved sna alignment pna ts matched :
  Forall (λ d, is_match d →
               is_Some (d !! "performance_id")
               ∧ ∃ sn, names_score_note sna d sn) alignment →
  eval_matched sna alignment pna = Some (ts, matched) →
  mask_select matched pna = filter (has_match alignment) pna ∧
  Forall2 (λ sp pn, ∃ d sn, first_match alignment pn = Some d
                            ∧ names_score_note sna d sn
                            ∧ sp = spelling_fields sn)
    ts (mask_select matched pna).
Proof.
  intros Hres H. unfold eval_matched in H.
  destruct (matched_notes alignment) as [ms|] eqn:Hm; [simpl in H|done].
  pose proof (matched_notes_Some_inv _ _ Hm) as Hlab.
  rewrite (matched_notes_filter _ Hlab) in Hm. injection Hm as <-.
  set (ms := filter is_match alignment) in *.
  assert (Hms : Forall (λ d, is_Some (d !! "performance_id")
                             ∧ ∃ sn, names_score_note sna d sn) ms).
  { apply Forall_forall. intros d Hd. apply list_elem_of_filter in Hd as [Hmd Hd].
    rewrite Forall_forall in Hres. by apply Hres. }
  destruct (eval_matched_loop sna ms Hms pna [] []) as (new & Hloop & Hnew).
  simpl in Hloop. rewrite Hloop in H. simpl in H.
  unfold np_take in H. destruct new as [|j0 new']; [done|].
  destruct (mapM _ (j0 :: new')) as [rows|] eqn:Hrows; [simpl in H|done].
  injection H as <- <-. apply mapM_Some in Hrows.
  rewrite mask_select_mask_of.
  assert (Hfilt : filter (has_match alignment) pna
                  = filter (λ pn, Exists (references pn) ms) pna).
  { apply list_filter_iff. intros pn. apply has_match_filter. }
  split; [done|]. apply Forall2_fmap_l.
  apply Forall2_same_length_lookup_2.
  - rewrite <- (Forall2_length _ _ _ Hrows). by eapply Forall2_length.
  - intros i row pn Hrow Hpn.
    destruct (Forall2_lookup_r _ _ _ _ _ Hrows Hrow) as (j & Hj & Hjr).
    destruct (Forall2_lookup_l _ _ _ _ _ Hnew Hj)
      as (pn' & Hpn' & d & sn & Hd & Hsn & Hlook).
    rewrite Hpn in Hpn'. injection Hpn' as <-.
    rewrite Hjr in Hlook. injection Hlook as ->.
    exists d, sn. split; [|done].
    unfold first_match. by rewrite <- list_filter_filter.
Qed.

Lemma names_perf_note_references pna d pn pn' :
  names_perf_note pna d pn' → references pn d → pn ∈ pna → pn' = pn.
Proof.
  intros (pid & Hpid & Hsel) Href Hin. unfold references in Href.
  rewrite Hpid in Href. injection Href as ->. simpl in Hsel.
  assert (Hpn : pn ∈ np_select (λ n', bool_decide (pn_id n' = pn_id pn)) pna).
  { unfold np_select. apply list_elem_of_filter. split; [|done].
    by apply bool_decide_eq_true. }
  rewrite Hsel in Hpn. by apply list_elem_of_singleton in Hpn.
Qed.

Lemma names_score_note_unique sna d sn sn' :
  names_score_note sna d sn → names_score_note sna d sn' → sn = sn'.
Proof.
  intros (sid & Hsid & Hsel) (sid' & Hsid' & Hsel').
  rewrite Hsid in Hsid'. injection Hsid' as <-. congruence.
Qed.

(** X16. Training and evaluation agree on a pair: when [create_data]
    and [eval_matched] both return for the same loaded pair, every
    evaluated performance note (a note the mask keeps) appears in the
    training data of that pair with its feature vector as a row of [X]
    and, at the same index of [y], the token of the very spelling that
    [true_spelling] lists for it. *)
Theorem train_eval_agree f X y ts matched :
  create_data [f] = Some ([X], [y]) →
  eval_matched (lp_sna f) (lp_alignment f) (lp_pna f) = Some (ts, matched) →
  ∀ k sp pn,
    ts !! k = Some sp → mask_select matched (lp_pna f) !! k = Some pn →
    ∃ i row tok,
      X !! i = Some row ∧ extract_features [pn] = Some row ∧
      y !! i = Some tok ∧ tokenize_pitch_spelling [sp] = Some tok.
Proof.
  intros Hc He k sp pn Hsp Hpn.
  destruct (create_data_lookup [f] [X] [y] 0%nat f Hc eq_refl)
    as (X' & y' & [= <-] & [= <-] & Hfd).
  destruct (file_data_matched_rows _ _ _ Hfd) as [[Hlab Hres] Hrows].
  assert (Hres' : Forall (λ d, is_match d →
               is_Some (d !! "performance_id")
               ∧ ∃ sn, names_score_note (lp_sna f) d sn) (lp_alignment f)).
  { eapply Forall_impl; [exact Hres|]. intros d Hd Hm.
    destruct (Hd Hm) as (pn0 & sn0 & tok0 & (pid & Hpid & _) & Hsn0 & _).
    split; [by eexists | by exists sn0]. }
  destruct (eval_matched_resolved _ _ _ _ _ Hres' He) as [Hsel Hall].
  destruct (Forall2_lookup_l _ _ _ _ _ Hall Hsp) as (pn' & Hpn' & d & sn & Hd & Hsn & ->).
  rewrite Hpn in Hpn'. injection Hpn' as <-.
  assert (Hin : pn ∈ lp_pna f).
  { apply list_elem_of_lookup_2 in Hpn. rewrite Hsel in Hpn.
    by apply list_elem_of_filter in Hpn as [_ ?]. }
  unfold first_match in Hd. apply head_filter_elem in Hd as [Hdin [Href Hm]].
  assert (Hdm : d ∈ filter is_match (lp_alignment f))
    by by apply list_elem_of_filter.
  apply list_elem_of_lookup_1 in Hdm as [i Hi].
  destruct Hrows as (_ & _ & _ & Hrow).
  destruct (Hrow i d Hi) as (pn1 & sn1 & row & tok & Hpn1 & Hsn1 & Hf & HX & Ht & Hy).
  rewrite (names_perf_note_references _ _ _ _ Hpn1 Href Hin) in Hf.
  rewrite <- (names_score_note_unique _ _ _ _ Hsn Hsn1) in Ht.
  by exists i, row, tok.
Qed.

Lemma train_eval_agree_witness :
  ∃ i row tok,
    (note_features <$> [PerfNote "p0" 60 (1#2); PerfNote "p1" 61 2]) !! i = Some row ∧
    extract_features [PerfNote "p1" 61 2] = Some row ∧
    [1; 3]%nat !! i = Some tok ∧
    tokenize_pitch_spelling [Spelling "C" 1 4] = Some tok.
Proof.
  refine (train_eval_agree example_pair
            (note_features <$> [PerfNote "p0" 60 (1#2); PerfNote "p1" 61 2])
            [1; 3]%nat [Spelling "B" 1 3; Spelling "C" 1 4] [1%Q; 1%Q; 0%Q]
            _ _ 1%nat (Spelling "C" 1 4) (PerfNote "p1" 61 2) _ _).
  - by vm_compute.
  - by vm_compute.
  - reflexivity.
  - reflexivity.
Defined.

(** ** From the alignment table to the match entries *)

Lemma produce_match_dict_label x :
  produce_match_dict x !! "label"
  = Some (VStr (if bool_decide (x.2 = VStr "deletion") then "deletion"
                else if bool_decide (x.1 = VStr "insertion") then "insertion"
                else "match")).
Proof. unfold produce_match_dict. by repeat case_bool_decide. Qed.

Lemma produce_match_dict_is_match x :
  is_match (produce_match_dict x) ↔ row_is_match x.
Proof.
  unfold is_match, row_is_match. rewrite produce_match_dict_label.
  case_bool_decide as H2; [split; [intros [=] | intros [Hn _]; by destruct Hn]|].
  case_bool_decide as H1; [split; [intros [=] | intros [_ Hn]; by destruct Hn]|].
  by split.
Qed.

(** X17. The alignment [produce_match] builds always passes the label
    lookup of [create_data] and [eval_matched]: selecting its entries
    labelled "match" gives, in order, the dicts of exactly the rows that
    are neither deletions nor insertions, and each of them carries a
    [score_id] and a [performance_id] that is a string. *)
Theorem produce_match_matched (data : list (pyval * pyval)) :
  matched_notes (produce_match data)
  = Some (produce_match (filter row_is_match data)) ∧
  Forall (λ d, is_match d →
               ∃ sid pid, d !! "score_id" = Some sid
                          ∧ d !! "performance_id" = Some (VStr pid))
         (produce_match data).
Proof.
  rewrite !produce_match_fmap. split.
  - induction data as [|x data IH]; [done|]. csimpl.
    pose proof (produce_match_dict_is_match x) as Hx. unfold is_match in Hx.
    destruct (produce_match_dict x !! "label") as [label|] eqn:Hl;
      [|by rewrite produce_match_dict_label in Hl].
    rewrite IH. simpl. f_equal. case_bool_decide as Hb.
    + rewrite filter_cons_True; [done|]. apply Hx. by subst.
    + rewrite filter_cons_False; [done|]. intros Hr. apply Hx in Hr. congruence.
  - apply Forall_fmap, Forall_forall. intros x _ Hm. simpl in *.
    apply produce_match_dict_is_match in Hm as [H2 H1].
    unfold produce_match_dict. rewrite !bool_decide_false by done.
    by eexists _, _.
Qed.

Lemma produce_match_matched_witness :
  matched_notes (produce_match [(VStr "s1", VStr "deletion"); (VStr "s2", VInt 7)])
  = Some (produce_match [(VStr "s2", VInt 7)]).
Proof.
  apply (proj1 (produce_match_matched
                  [(VStr "s1", VStr "deletion"); (VStr "s2", VInt 7)])).
Defined.

(** ** The split of the files *)

Lemma zip_fmap_same {A B C} (f : A → B) (g : A → C) (l : list A) :
  zip (f <$> l) (g <$> l) = (λ t, (f t, g t)) <$> l.
Proof. induction l as [|x l IH]; csimpl; [done | by f_equal]. Qed.

(** X18. The split into training and test pairs is a partition of the
    [(score_file, match_file)] pairs: each pair lands in exactly one of
    the two lists, the test list holding the pairs whose score path
    contains "Italian_concerto", and both lists keep the order of the
    files. With no file at all the unpacking raises. *)
Theorem train_test_split_partition
    (asap_files : list (string * string * string * string)) :
  (is_Some (train_test_split asap_files) ↔ asap_files ≠ []) ∧
  ∀ asap_train asap_test,
    train_test_split asap_files = Some (asap_train, asap_test) →
    let pairs := (λ t, (t.1.2, t.2)) <$> asap_files in
    asap_train ++ asap_test ≡ₚ pairs ∧
    asap_train `sublist_of` pairs ∧ asap_test `sublist_of` pairs ∧
    (∀ t, t ∈ asap_train ↔ t ∈ pairs ∧ py_in "Italian_concerto" t.1 = false) ∧
    (∀ t, t ∈ asap_test ↔ t ∈ pairs ∧ py_in "Italian_concerto" t.1 = true) ∧
    (∀ t, ¬ (t ∈ asap_train ∧ t ∈ asap_test)).
Proof.
  split.
  - destruct asap_files as [|x l]; split.
    + by intros [? ?].
    + done.
    + done.
    + intros _. by eexists.
  - intros asap_train asap_test H pairs. unfold train_test_split in H.
    destruct asap_files as [|x files]; [done|].
    rewrite zip_fmap_same in H. fold pairs in H. injection H as <- <-.
    assert (Hmem : ∀ (b : bool) t,
              t ∈ filter (λ t, py_in "Italian_concerto" t.1 = b) pairs
              ↔ t ∈ pairs ∧ py_in "Italian_concerto" t.1 = b).
    { intros b t. rewrite list_elem_of_filter. tauto. }
    split; [|split; [apply sublist_filter|split; [apply sublist_filter|]]].
    + rewrite Permutation_app_comm.
      rewrite (list_filter_iff (λ t, py_in "Italian_concerto" t.1 = false)
                 (λ t, ¬ py_in "Italian_concerto" t.1 = true)).
      * apply filter_app_complement.
      * intros t. by destruct (py_in _ _).
    + split; [apply Hmem|]. split; [apply Hmem|].
      intros t [H1 H2]. apply Hmem in H1 as [_ H1], H2 as [_ H2]. congruence.
Qed.

Lemma train_test_split_partition_witness :
  let pairs := [("Bach/Italian_concerto/xml_score.musicxml", "m1");
                ("Bach/Fugue/xml_score.musicxml", "m2")] in
  [("Bach/Fugue/xml_score.musicxml", "m2")]
  ++ [("Bach/Italian_concerto/xml_score.musicxml", "m1")] ≡ₚ pairs.
Proof.
  apply (proj2 (train_test_split_partition
                  [("a1", "p1", "Bach/Italian_concerto/xml_score.musicxml", "m1");
                   ("a2", "p2", "Bach/Fugue/xml_score.musicxml", "m2")])
           [("Bach/Fugue/xml_score.musicxml", "m2")]
           [("Bach/Italian_concerto/xml_score.musicxml", "m1")]).
  reflexivity.
Defined.

(** ** The layers of the model *)


